(** * Verification of the throttle wrapper and the asynchronous task queue

    Source: [src/quests/js-native-throttling.js].

    The file holds two independent utilities:
    - [throttle(func, wait, options)], a rate-limiting wrapper built from a
      flag, a stored trailing marker and a single timer, and
    - [createAsyncQueue({concurrency})], a queue that starts submitted tasks
      while fewer than [concurrency] of them are running.

    Both are embedded as state machines.  The closure variables of the
    JavaScript code are the fields of a record; the parts of the host the code
    talks to (the clock, the timer table of [setTimeout]/[clearTimeout], the
    promises handed out, the calls made to user functions) are further fields
    of the same record, so that every effect of a step is visible in the
    state that results from it. *)

From stdpp Require Import base list numbers strings.
From Stdlib Require Import ZArith Lia.

Open Scope Z_scope.

(** ** JavaScript values of a [let] variable

    A variable declared with [let x;] holds [undefined] until it is assigned;
    the code also assigns [null].  Conditions only look at truthiness. *)

Inductive js (A : Type) : Type :=
| Undefined
| Null
| Val (a : A).

Arguments Undefined {A}.
Arguments Null {A}.
Arguments Val {A} a.

(** [!x] and [if (x)] for a variable that holds a boolean, if anything. *)
Definition truthy (v : js bool) : bool :=
  match v with
  | Val b => b
  | _ => false
  end.

(** Truthiness of a variable that holds a function object, if anything. *)
Definition is_set {A : Type} (v : js A) : bool :=
  match v with
  | Val _ => true
  | _ => false
  end.

(** Synchronous exceptions: a computation either returns or throws, and in
    both cases the mutations it made so far persist. *)
Inductive outcome (E S : Type) : Type :=
| Returned (s : S)
| Threw (e : E) (s : S).

Arguments Returned {E S} s.
Arguments Threw {E S} e s.

Definition state_of {E S : Type} (r : outcome E S) : S :=
  match r with
  | Returned s => s
  | Threw _ s => s
  end.

Definition has_thrown {E S : Type} (r : outcome E S) : bool :=
  match r with
  | Returned _ => false
  | Threw _ _ => true
  end.

(** * The throttle wrapper *)

Module Throttle.

Section Wrapper.

(** The [this] binding and the argument list of a call are opaque to the
    wrapper: it only stores them and passes them on. *)
Variables Ctx Args : Type.

(** Which branch of the wrapper called [func.apply(context, args)]: the
    one in the body of [throttled] or the one in the timer callback. *)
Inductive edge : Set := Leading | Trailing.

(** One call [func.apply(context, args)], with the time it was made at. *)
Record invocation : Type := Invocation {
  inv_time : Z;
  inv_this : Ctx;
  inv_args : Args;
  inv_edge : edge
}.

(** A pending entry of the host's timer table.  The callback passed to
    [setTimeout] is always the same function; what differs between two
    timers is the [context] and [args] its closure captured. *)
Record timer : Type := Timer {
  timer_id : nat;
  timer_due : Z;
  timer_this : Ctx;
  timer_args : Args
}.

(** [const { leading = true, trailing = true } = options;] and [wait], a
    whole number of milliseconds. *)
Record config : Type := Config {
  leading : bool;
  trailing : bool;
  wait : Z
}.

Record options : Type := Options {
  opt_leading : js bool;
  opt_trailing : js bool
}.

(** A destructuring default replaces [undefined] only. *)
Definition with_default (d : bool) (v : js bool) : bool :=
  match v with
  | Undefined => d
  | Null => false
  | Val b => b
  end.

Inductive type_error : Set :=
| ExpectedFunction
| ExpectedNonNegativeWait.

(** [throttle(func, wait, options)] up to the creation of the closure.
    [func] is a function by typing, so the first check cannot fail. *)
Definition throttle (wait_ms : Z) (o : options) : type_error + config :=
  if wait_ms <? 0 then inl ExpectedNonNegativeWait
  else inr {| leading := with_default true (opt_leading o);
              trailing := with_default true (opt_trailing o);
              wait := wait_ms |}.

(** [func] is user code: while it runs it may call the wrapper or
    [cancel], and it ends by returning or by throwing.  A call of [func] in
    progress is a frame; the frame says which statements of the wrapper are
    waiting for [func] to return: the rest of the body of [throttled] after
    the leading call, with the [context] and [args] of that call of
    [throttled], or the rest of the timer callback after the trailing
    call. *)
Inductive frame : Type :=
| AfterLeading (this : Ctx) (args : Args)
| AfterTrailing.

(** The closure variables [inThrottle], [lastFn], [lastTime], the property
    [throttled.timeoutId], and the host: its clock ([Date.now()]), its
    timer table, the next timer id, the calls made to [func], and the calls
    of [func] in progress, innermost first. *)
Record state : Type := State {
  inThrottle : js bool;
  lastFn : js unit;
  lastTime : js Z;
  timeoutId : js nat;
  clock : Z;
  timers : list timer;
  next_timer : nat;
  invoked : list invocation;
  frames : list frame
}.

(** The state right after [throttle] returned, at time [t0]. *)
Definition init (t0 : Z) : state :=
  {| inThrottle := Undefined; lastFn := Undefined; lastTime := Undefined;
     timeoutId := Undefined;
     clock := t0; timers := []; next_timer := 1; invoked := [];
     frames := [] |}.

(** [clearTimeout(id)]: removes the timer with that id, if it is pending;
    does nothing for [undefined] and for the id of a timer that has fired. *)
Definition clearTimeout (id : js nat) (tbl : list timer) : list timer :=
  match id with
  | Val i => filter (λ tm, timer_id tm ≠ i) tbl
  | _ => tbl
  end.

(** The host keeps the delay of [setTimeout] in a signed 32-bit integer.
    Up to [max_delay] the callback is not run before the delay has passed.
    Above it Node uses a delay of 1 ms and browsers wrap the number around,
    so that on no host a delay is guaranteed.  [host_delay] is the delay
    every host guarantees. *)
Definition max_delay : Z := 2147483647.

Definition host_delay (delay : Z) : Z :=
  if delay <=? max_delay then delay else 0.

(** [func.apply(context, args)] begins: the call is made, and the frame [k]
    waits for it to end. *)
Definition apply_func (e : edge) (this : Ctx) (args : Args) (k : frame)
           (s : state) : state :=
  {| inThrottle := inThrottle s; lastFn := lastFn s; lastTime := lastTime s;
     timeoutId := timeoutId s; clock := clock s; timers := timers s;
     next_timer := next_timer s;
     invoked := invoked s ++ [Invocation (clock s) this args e];
     frames := k :: frames s |}.

(** [lastFn = func; lastTime = Date.now();] *)
Definition remember (s : state) : state :=
  {| inThrottle := inThrottle s; lastFn := Val (); lastTime := Val (clock s);
     timeoutId := timeoutId s; clock := clock s; timers := timers s;
     next_timer := next_timer s; invoked := invoked s; frames := frames s |}.

Definition set_inThrottle (b : bool) (s : state) : state :=
  {| inThrottle := Val b; lastFn := lastFn s; lastTime := lastTime s;
     timeoutId := timeoutId s; clock := clock s; timers := timers s;
     next_timer := next_timer s; invoked := invoked s; frames := frames s |}.

Definition set_lastFn_null (s : state) : state :=
  {| inThrottle := inThrottle s; lastFn := Null; lastTime := lastTime s;
     timeoutId := timeoutId s; clock := clock s; timers := timers s;
     next_timer := next_timer s; invoked := invoked s; frames := frames s |}.

Definition set_lastTime_null (s : state) : state :=
  {| inThrottle := inThrottle s; lastFn := lastFn s; lastTime := Null;
     timeoutId := timeoutId s; clock := clock s; timers := timers s;
     next_timer := next_timer s; invoked := invoked s; frames := frames s |}.

(** [clearTimeout(throttled.timeoutId);] *)
Definition clear_own_timer (s : state) : state :=
  {| inThrottle := inThrottle s; lastFn := lastFn s; lastTime := lastTime s;
     timeoutId := timeoutId s; clock := clock s;
     timers := clearTimeout (timeoutId s) (timers s);
     next_timer := next_timer s; invoked := invoked s; frames := frames s |}.

(** [throttled.timeoutId = setTimeout(function () {...}, wait);] where the
    callback closes over [context] and [args] of the current call. *)
Definition set_own_timer (c : config) (this : Ctx) (args : Args) (s : state) : state :=
  {| inThrottle := inThrottle s; lastFn := lastFn s; lastTime := lastTime s;
     timeoutId := Val (next_timer s); clock := clock s;
     timers := timers s ++
               [Timer (next_timer s) (clock s + host_delay (wait c)) this args];
     next_timer := S (next_timer s); invoked := invoked s;
     frames := frames s |}.

(** The last two statements of [throttled]: [clearTimeout], [setTimeout]. *)
Definition rearm (c : config) (this : Ctx) (args : Args) (s : state) : state :=
  set_own_timer c this args (clear_own_timer s).

(** The body of [throttled], called with [this] and [args], up to its end
    or, on the leading edge, up to the call of [func]. *)
Definition throttled (c : config) (this : Ctx) (args : Args) (s : state) : state :=
  if negb (truthy (inThrottle s)) then
    if leading c
    then apply_func Leading this args (AfterLeading this args) s
    else rearm c this args (set_inThrottle true (remember s))
  else rearm c this args (remember s).

(** The callback given to [setTimeout], with the [context] and [args] its
    closure captured, up to its end or up to the call of [func]. *)
Definition on_timeout (c : config) (this : Ctx) (args : Args) (s : state) : state :=
  if trailing c && is_set (lastFn s)
  then apply_func Trailing this args AfterTrailing s
  else set_lastTime_null (set_inThrottle false s).

(** [func] has returned: the statements that were waiting for it run.
    After the leading call these are [inThrottle = true] and the two timer
    statements; after the trailing call [lastFn = null],
    [inThrottle = false], [lastTime = null]. *)
Definition after_func (c : config) (k : frame) (s : state) : state :=
  match k with
  | AfterLeading this args => rearm c this args (set_inThrottle true s)
  | AfterTrailing => set_lastTime_null (set_inThrottle false (set_lastFn_null s))
  end.

(** [throttled.cancel] *)
Definition cancel (s : state) : state :=
  set_lastTime_null (set_lastFn_null (set_inThrottle false (clear_own_timer s))).

(** *** The host: time passes, calls arrive, [func] ends, timers fire *)

Definition advance (t : Z) (s : state) : state :=
  {| inThrottle := inThrottle s; lastFn := lastFn s; lastTime := lastTime s;
     timeoutId := timeoutId s; clock := t; timers := timers s;
     next_timer := next_timer s; invoked := invoked s; frames := frames s |}.

Definition drop_timer (i : nat) (s : state) : state :=
  {| inThrottle := inThrottle s; lastFn := lastFn s; lastTime := lastTime s;
     timeoutId := timeoutId s; clock := clock s;
     timers := filter (λ tm, timer_id tm ≠ i) (timers s);
     next_timer := next_timer s; invoked := invoked s; frames := frames s |}.

Definition set_frames (l : list frame) (s : state) : state :=
  {| inThrottle := inThrottle s; lastFn := lastFn s; lastTime := lastTime s;
     timeoutId := timeoutId s; clock := clock s; timers := timers s;
     next_timer := next_timer s; invoked := invoked s; frames := l |}.

(** [Call] and [Cancel] happen at top level or, while a call of [func] is in
    progress, inside it.  [Return] and [Throw] end the innermost call of
    [func]; an exception leaves the statements that were waiting for it
    undone.  The host runs a timer only when no code is running. *)
Inductive event : Type :=
| Call (t : Z) (this : Ctx) (args : Args)
| Return (t : Z)
| Throw (t : Z)
| Fire (i : nat) (t : Z)
| Cancel (t : Z).

Definition find_timer (i : nat) (tbl : list timer) : option timer :=
  list_find (λ tm, timer_id tm = i) tbl ≫= λ p, Some (snd p).

(** One step.  Time never runs backwards, and a timer runs no earlier than
    it is due; it may run later.  [None] means that the event cannot happen
    in this state. *)
Definition step (c : config) (e : event) (s : state) : option state :=
  match e with
  | Call t this args =>
      if clock s <=? t then Some (throttled c this args (advance t s)) else None
  | Cancel t =>
      if clock s <=? t then Some (cancel (advance t s)) else None
  | Return t =>
      match frames s with
      | k :: rest =>
          if clock s <=? t
          then Some (after_func c k (set_frames rest (advance t s)))
          else None
      | [] => None
      end
  | Throw t =>
      match frames s with
      | k :: rest =>
          if clock s <=? t then Some (set_frames rest (advance t s)) else None
      | [] => None
      end
  | Fire i t =>
      match frames s, find_timer i (timers s) with
      | [], Some tm =>
          if (clock s <=? t) && (timer_due tm <=? t)
          then Some (on_timeout c (timer_this tm) (timer_args tm)
                       (drop_timer i (advance t s)))
          else None
      | _, _ => None
      end
  end.

Fixpoint run (c : config) (tr : list event) (s : state) : option state :=
  match tr with
  | [] => Some s
  | e :: tr' =>
      match step c e s with
      | Some s' => run c tr' s'
      | None => None
      end
  end.

Definition is_call (e : event) : bool :=
  match e with Call _ _ _ => true | _ => false end.

Definition is_cancel (e : event) : bool :=
  match e with Cancel _ => true | _ => false end.

(** An event that is no exception thrown by [func] and no call of the
    wrapper or of [cancel] made by [func] while it runs. *)
Definition polite (e : event) (s : state) : bool :=
  match e, frames s with
  | Throw _, _ => false
  | Return _, _ => true
  | _, [] => true
  | _, _ :: _ => false
  end.

(** In a run from [s], [func] never throws and, while it runs, nothing
    happens but its return. *)
Fixpoint calm (c : config) (tr : list event) (s : state) : bool :=
  match tr with
  | [] => true
  | e :: tr' =>
      polite e s
      && match step c e s with
         | Some s' => calm c tr' s'
         | None => true
         end
  end.

(** States the wrapper can be in: [init] followed by any events. *)
Definition reachable (c : config) (s : state) : Prop :=
  ∃ t0 tr, run c tr (init t0) = Some s.

(** The claim "at most one call of [func] per window of [wait] ms", read on
    the list of calls made: two different calls are at least [wait] apart. *)
Definition once_per_window (w : Z) (log : list invocation) : Prop :=
  ∀ i j a b, (i < j)%nat → log !! i = Some a → log !! j = Some b →
             inv_time a + w <= inv_time b.

(** The same, except for a trailing call followed by a leading one. *)
Definition spaced (w : Z) (log : list invocation) : Prop :=
  ∀ i j a b, (i < j)%nat → log !! i = Some a → log !! j = Some b →
             ¬ (inv_edge a = Trailing ∧ inv_edge b = Leading) →
             inv_time a + w <= inv_time b.

(** The [this] and [args] of the calls to the wrapper in a trace, and their
    times. *)
Definition payloads (tr : list event) : list (Ctx * Args) :=
  omap (λ e, match e with
             | Call _ this args => Some (this, args)
             | _ => None
             end) tr.

Definition call_times (tr : list event) : list Z :=
  omap (λ e, match e with Call t _ _ => Some t | _ => None end) tr.

(** *** Invariants of every run *)

(** The host holds at most one timer of the wrapper, and
    [throttled.timeoutId] names it. *)
Definition one_timer (s : state) : Prop :=
  timers s = [] ∨ ∃ tm, timers s = [tm] ∧ timeoutId s = Val (timer_id tm).

Definition tidy (s : state) : Prop :=
  (∀ a, a ∈ invoked s → inv_time a <= clock s) ∧ one_timer s.

Lemma find_timer_single (i : nat) (tm tm' : timer) :
  find_timer i [tm] = Some tm' → tm' = tm ∧ timer_id tm = i.
Proof.
  unfold find_timer. simpl. case_decide; simpl; [|discriminate].
  intros [= <-]. done.
Qed.

Lemma find_timer_nil (i : nat) : find_timer i [] = None.
Proof. reflexivity. Qed.

Lemma find_timer_elem (i : nat) (tbl : list timer) (tm : timer) :
  find_timer i tbl = Some tm → tm ∈ tbl ∧ timer_id tm = i.
Proof.
  unfold find_timer. destruct (list_find _ tbl) as [[k x]|] eqn:Hf; [|discriminate].
  simpl. intros [= <-]. apply list_find_Some in Hf as (Hk & Hid & _).
  split; [by eapply list_elem_of_lookup_2 | done].
Qed.

Lemma filter_single_own (tm : timer) :
  filter (λ x, timer_id x ≠ timer_id tm) [tm] = [].
Proof.
  rewrite filter_cons. case_decide; [congruence | reflexivity].
Qed.

Lemma clearTimeout_subseteq (id : js nat) (tbl : list timer) :
  clearTimeout id tbl ⊆ tbl.
Proof.
  destruct id; simpl; [done..|]. intros x Hx.
  by apply list_elem_of_filter in Hx as [_ Hx].
Qed.

Lemma clear_own_timer_nil (s : state) :
  one_timer s → timers (clear_own_timer s) = [].
Proof.
  intros [Ht | (tm & Ht & Hid)]; simpl; rewrite Ht.
  - destruct (timeoutId s); reflexivity.
  - rewrite Hid. simpl. apply filter_single_own.
Qed.

Lemma rearm_timers (c : config) (this : Ctx) (args : Args) (s : state) :
  one_timer s →
  timers (rearm c this args s)
  = [Timer (next_timer s) (clock s + host_delay (wait c)) this args].
Proof.
  intros H. unfold rearm. simpl.
  pose proof (clear_own_timer_nil s H) as Hn. simpl in Hn. by rewrite Hn.
Qed.

Lemma rearm_one_timer (c : config) (this : Ctx) (args : Args) (s : state) :
  one_timer s → one_timer (rearm c this args s).
Proof.
  intros H. right. eexists. split; [by apply rearm_timers|]. reflexivity.
Qed.

(** The calls of [func] a step makes. *)
Lemma step_invoked (c : config) (e : event) (s s' : state) :
  step c e s = Some s' →
  (invoked s' = invoked s ∧ ∀ k, k ∈ frames s' → k ∈ frames s) ∨
  (∃ t this args,
     e = Call t this args ∧ leading c = true ∧
     truthy (inThrottle s) = false ∧ clock s <= t ∧
     s' = apply_func Leading this args (AfterLeading this args) (advance t s)) ∨
  (∃ i t tm,
     e = Fire i t ∧ trailing c = true ∧ is_set (lastFn s) = true ∧
     frames s = [] ∧ tm ∈ timers s ∧ timer_id tm = i ∧
     clock s <= t ∧ timer_due tm <= t ∧
     s' = apply_func Trailing (timer_this tm) (timer_args tm) AfterTrailing
            (drop_timer i (advance t s))).
Proof.
  intros Hstep. destruct e as [t this args | t | t | i t | t]; simpl in Hstep.
  - destruct (clock s <=? t) eqn:E; [|discriminate]. injection Hstep as <-.
    unfold throttled. simpl. destruct (truthy (inThrottle s)) eqn:Hin; simpl.
    + by left.
    + destruct (leading c) eqn:Hl; [|by left].
      right. left. exists t, this, args. repeat split; try done. lia.
  - destruct (frames s) as [|k rest] eqn:Hf; [discriminate|].
    destruct (clock s <=? t); [|discriminate]. injection Hstep as <-.
    left. destruct k; simpl; (split; [done|]); intros k Hk;
      apply elem_of_cons; by right.
  - destruct (frames s) as [|k rest] eqn:Hf; [discriminate|].
    destruct (clock s <=? t); [|discriminate]. injection Hstep as <-.
    left. simpl. split; [done|]. intros k' Hk. apply elem_of_cons. by right.
  - destruct (frames s) as [|k rest] eqn:Hf; [|discriminate].
    destruct (find_timer i (timers s)) as [tm|] eqn:Hfind; [|discriminate].
    destruct (clock s <=? t) eqn:E1; [|discriminate].
    destruct (timer_due tm <=? t) eqn:E2; [|discriminate].
    simpl in Hstep. injection Hstep as <-.
    apply find_timer_elem in Hfind as [Hin Hid].
    unfold on_timeout. simpl. destruct (trailing c) eqn:Htr; simpl.
    + destruct (is_set (lastFn s)) eqn:Hfn.
      * right. right. exists i, t, tm. repeat split; try done; lia.
      * left. simpl. by rewrite Hf.
    + left. simpl. by rewrite Hf.
  - destruct (clock s <=? t); [|discriminate]. injection Hstep as <-.
    by left.
Qed.

Lemma step_clock (c : config) (e : event) (s s' : state) :
  step c e s = Some s' → clock s <= clock s'.
Proof.
  intros Hstep. destruct e as [t this args | t | t | i t | t]; simpl in Hstep.
  - destruct (clock s <=? t) eqn:E; [|discriminate]. injection Hstep as <-.
    unfold throttled. simpl. destruct (truthy (inThrottle s)); simpl; [lia|].
    destruct (leading c); simpl; lia.
  - destruct (frames s) as [|k rest]; [discriminate|].
    destruct (clock s <=? t) eqn:E; [|discriminate]. injection Hstep as <-.
    destruct k; simpl; lia.
  - destruct (frames s) as [|k rest]; [discriminate|].
    destruct (clock s <=? t) eqn:E; [|discriminate]. injection Hstep as <-.
    simpl. lia.
  - destruct (frames s) as [|k rest]; [|discriminate].
    destruct (find_timer i (timers s)) as [tm|]; [|discriminate].
    destruct (clock s <=? t) eqn:E1; [|discriminate].
    destruct (timer_due tm <=? t); [|discriminate].
    simpl in Hstep. injection Hstep as <-. unfold on_timeout. simpl.
    destruct (trailing c && is_set (lastFn s)); simpl; lia.
  - destruct (clock s <=? t) eqn:E; [|discriminate]. injection Hstep as <-.
    simpl. lia.
Qed.

Lemma step_one_timer (c : config) (e : event) (s s' : state) :
  one_timer s → step c e s = Some s' → one_timer s'.
Proof.
  intros H1 Hstep. destruct e as [t this args | t | t | i t | t]; simpl in Hstep.
  - destruct (clock s <=? t); [|discriminate]. injection Hstep as <-.
    unfold throttled. simpl. destruct (truthy (inThrottle s)); simpl.
    + by apply rearm_one_timer.
    + destruct (leading c); [exact H1 | by apply rearm_one_timer].
  - destruct (frames s) as [|k rest]; [discriminate|].
    destruct (clock s <=? t); [|discriminate]. injection Hstep as <-.
    destruct k; simpl; [by apply rearm_one_timer | exact H1].
  - destruct (frames s) as [|k rest]; [discriminate|].
    destruct (clock s <=? t); [|discriminate]. injection Hstep as <-. exact H1.
  - destruct (frames s) as [|k rest]; [|discriminate].
    destruct (find_timer i (timers s)) as [tm|] eqn:Hfind; [|discriminate].
    destruct ((clock s <=? t) && (timer_due tm <=? t)); [|discriminate].
    injection Hstep as <-.
    assert (Hnil : filter (λ x, timer_id x ≠ i) (timers s) = []).
    { destruct H1 as [Ht | (tm' & Ht & _)]; rewrite Ht in *; [done|].
      apply find_timer_single in Hfind as [_ <-]. apply filter_single_own. }
    left. unfold on_timeout. simpl.
    destruct (trailing c && is_set (lastFn s)); simpl; exact Hnil.
  - destruct (clock s <=? t); [|discriminate]. injection Hstep as <-.
    left. exact (clear_own_timer_nil (advance t s) H1).
Qed.

Lemma step_tidy (c : config) (e : event) (s s' : state) :
  tidy s → step c e s = Some s' → tidy s'.
Proof.
  intros [Hle H1] Hstep. split; [|by eapply step_one_timer].
  pose proof (step_clock c e s s' Hstep) as Hclk.
  destruct (step_invoked c e s s' Hstep)
    as [[Hi _] | [(t & this & args & _ & _ & _ & Ht & ->)
                 | (i & t & tm & _ & _ & _ & _ & _ & _ & Ht & _ & ->)]].
  - rewrite Hi. intros a Ha. specialize (Hle a Ha). lia.
  - simpl. intros a Ha. apply elem_of_app in Ha as [Ha | Ha].
    + specialize (Hle a Ha). lia.
    + apply list_elem_of_singleton in Ha. subst a. simpl. lia.
  - simpl. intros a Ha. apply elem_of_app in Ha as [Ha | Ha].
    + specialize (Hle a Ha). lia.
    + apply list_elem_of_singleton in Ha. subst a. simpl. lia.
Qed.

Lemma tidy_init (t0 : Z) : tidy (init t0).
Proof. split; [intros a Ha; inversion Ha | by left]. Qed.

Lemma run_tidy (c : config) (tr : list event) (s s' : state) :
  tidy s → run c tr s = Some s' → tidy s'.
Proof.
  revert s. induction tr as [|e tr IH]; intros s Ht Hrun; simpl in Hrun.
  - by injection Hrun as <-.
  - destruct (step c e s) as [s1|] eqn:Hs; [|discriminate].
    eapply IH; [|exact Hrun]. by eapply step_tidy.
Qed.

Lemma tidy_reachable (c : config) (s : state) : reachable c s → tidy s.
Proof. intros (t0 & tr & Hrun). eapply run_tidy; [apply tidy_init | exact Hrun]. Qed.

Lemma run_app (c : config) (tr1 tr2 : list event) (s : state) :
  run c (tr1 ++ tr2) s = run c tr1 s ≫= run c tr2.
Proof.
  revert s. induction tr1 as [|e tr1 IH]; intros s; simpl; [done|].
  destruct (step c e s); [apply IH | done].
Qed.

Lemma run_snoc (c : config) (tr : list event) (e : event) (s s' : state) :
  run c (tr ++ [e]) s = Some s' →
  ∃ s0, run c tr s = Some s0 ∧ step c e s0 = Some s'.
Proof.
  rewrite run_app. destruct (run c tr s) as [s0|]; [|discriminate].
  intros H. exists s0. split; [done|]. cbn [mbind option_bind run] in H.
  by destruct (step c e s0).
Qed.

Lemma throttle_inr (w : Z) (o : options) (c : config) :
  throttle w o = inr c →
  0 <= w ∧ wait c = w ∧
  leading c = with_default true (opt_leading o) ∧
  trailing c = with_default true (opt_trailing o).
Proof.
  unfold throttle. destruct (w <? 0) eqn:E; [discriminate|].
  intros [= <-]. simpl. repeat split. lia.
Qed.

Lemma host_delay_nonneg (w : Z) : 0 <= w → 0 <= host_delay w.
Proof. unfold host_delay. destruct (w <=? max_delay); lia. Qed.

Lemma host_delay_in_range (w : Z) : w <= max_delay → host_delay w = w.
Proof. unfold host_delay. destruct (w <=? max_delay) eqn:E; lia. Qed.

(** *** Where the arguments of a call to [func] come from *)

Lemma elem_of_payloads (tr : list event) (this : Ctx) (args : Args) :
  (this, args) ∈ payloads tr ↔ ∃ t, Call t this args ∈ tr.
Proof.
  unfold payloads. rewrite list_elem_of_omap. split.
  - intros (e & He & Hp). destruct e as [t th ar| | | |]; [|discriminate..].
    injection Hp as -> ->. by exists t.
  - intros (t & Ht). by exists (Call t this args).
Qed.

(** Everything called since [base], everything a pending timer would call
    and everything a waiting frame would set a timer for was passed to one
    of the calls in [R]. *)
Definition sourced (R : list (Ctx * Args)) (base : list invocation) (s : state) : Prop :=
  (∃ new, invoked s = base ++ new ∧
          ∀ a, a ∈ new → (inv_this a, inv_args a) ∈ R) ∧
  (∀ tm, tm ∈ timers s → (timer_this tm, timer_args tm) ∈ R) ∧
  (∀ this args, AfterLeading this args ∈ frames s → (this, args) ∈ R).

Lemma rearm_timers_elem (c : config) (this : Ctx) (args : Args) (s : state) (tm : timer) :
  tm ∈ timers (rearm c this args s) →
  tm ∈ timers s ∨ (timer_this tm = this ∧ timer_args tm = args).
Proof.
  unfold rearm. simpl. intros Hin. apply elem_of_app in Hin as [Hin | Hin].
  - left. by apply clearTimeout_subseteq in Hin.
  - right. apply list_elem_of_singleton in Hin. by subst tm.
Qed.

Lemma sourced_step (c : config) (e : event) (R : list (Ctx * Args))
      (base : list invocation) (s s' : state) :
  sourced R base s → step c e s = Some s' →
  sourced (R ++ payloads [e]) base s'.
Proof.
  intros [(new & Hn & Hnew) [Htm Hfr]] Hstep.
  assert (Hup : ∀ x, x ∈ R → x ∈ R ++ payloads [e])
    by (intros x Hx; apply elem_of_app; by left).
  destruct e as [t this args | t | t | i t | t]; simpl in Hstep.
  - destruct (clock s <=? t); [|discriminate]. injection Hstep as <-.
    assert (Hp : payloads [Call t this args] = [(this, args)]) by reflexivity.
    rewrite Hp in *.
    assert (Hnewp : (this, args) ∈ R ++ [(this, args)]).
    { apply elem_of_app. right. by apply list_elem_of_singleton. }
    assert (Hre : ∀ s1, invoked s1 = invoked s → timers s1 = timers s →
                        frames s1 = frames s →
                        sourced (R ++ [(this, args)]) base (rearm c this args s1)).
    { intros s1 H1 H2 H3. split; [|split].
      - exists new. split; [by rewrite <- Hn, <- H1|]. intros a Ha.
        apply Hup. by apply Hnew.
      - intros tm Hin. apply rearm_timers_elem in Hin as [Hin | [-> ->]];
          [|done]. rewrite H2 in Hin. apply Hup. by apply Htm.
      - intros th ar Hin. simpl in Hin. rewrite H3 in Hin. apply Hup.
        by apply Hfr. }
    unfold throttled. simpl. destruct (truthy (inThrottle s)); simpl.
    + by apply Hre.
    + destruct (leading c); [|by apply Hre]. split; [|split]; simpl.
      * exists (new ++ [Invocation t this args Leading]).
        split; [by rewrite Hn, app_assoc|]. intros a Ha.
        apply elem_of_app in Ha as [Ha | Ha]; [apply Hup; by apply Hnew|].
        apply list_elem_of_singleton in Ha. by subst a.
      * intros tm Hin. apply Hup. by apply Htm.
      * intros th ar Hin. apply elem_of_cons in Hin as [[= -> ->] | Hin];
          [done|]. apply Hup. by apply Hfr.
  - destruct (frames s) as [|k rest] eqn:Hf; [discriminate|].
    destruct (clock s <=? t); [|discriminate]. injection Hstep as <-.
    assert (Hp : payloads [Return t] = []) by reflexivity.
    rewrite Hp, app_nil_r.
    assert (Hrest : ∀ th ar, AfterLeading th ar ∈ rest → (th, ar) ∈ R).
    { intros th ar Hin. apply Hfr. apply elem_of_cons. by right. }
    destruct k as [this args|]; simpl.
    + split; [by exists new|]. split; [|done].
      intros tm Hin.
      apply rearm_timers_elem in Hin as [Hin | [-> ->]]; [by apply Htm|].
      apply Hfr. apply elem_of_cons. by left.
    + split; [by exists new|]. by split.
  - destruct (frames s) as [|k rest] eqn:Hf; [discriminate|].
    destruct (clock s <=? t); [|discriminate]. injection Hstep as <-.
    assert (Hp : payloads [Throw t] = []) by reflexivity.
    rewrite Hp, app_nil_r. simpl. split; [by exists new|]. split; [done|].
    intros th ar Hin. apply Hfr. apply elem_of_cons. by right.
  - destruct (frames s) as [|k rest] eqn:Hf; [|discriminate].
    destruct (find_timer i (timers s)) as [tm|] eqn:Hfind; [|discriminate].
    destruct ((clock s <=? t) && (timer_due tm <=? t)); [|discriminate].
    injection Hstep as <-. apply find_timer_elem in Hfind as [Hin _].
    assert (Hp : payloads [Fire i t] = []) by reflexivity.
    rewrite Hp, app_nil_r. unfold on_timeout. simpl.
    assert (Hfil : ∀ x, x ∈ filter (λ y, timer_id y ≠ i) (timers s) →
                        (timer_this x, timer_args x) ∈ R).
    { intros x Hx. apply list_elem_of_filter in Hx as [_ Hx]. by apply Htm. }
    destruct (trailing c && is_set (lastFn s)); simpl.
    + split; [|split]; simpl.
      * exists (new ++ [Invocation t (timer_this tm) (timer_args tm) Trailing]).
        split; [by rewrite Hn, app_assoc|]. intros a Ha.
        apply elem_of_app in Ha as [Ha | Ha]; [by apply Hnew|].
        apply list_elem_of_singleton in Ha. subst a. simpl. by apply Htm.
      * exact Hfil.
      * intros th ar Hk.
        apply elem_of_cons in Hk as [? | Hk]; [discriminate|].
        rewrite Hf in Hk. inversion Hk.
    + split; [by exists new|]. split; [exact Hfil|].
      intros th ar Hk. simpl in Hk. rewrite Hf in Hk. inversion Hk.
  - destruct (clock s <=? t); [|discriminate]. injection Hstep as <-.
    assert (Hp : payloads [Cancel t] = []) by reflexivity.
    rewrite Hp, app_nil_r. simpl. split; [by exists new|]. split; [|done].
    intros tm Hin. apply clearTimeout_subseteq in Hin. by apply Htm.
Qed.

Lemma sourced_run (c : config) (tr : list event) (R : list (Ctx * Args))
      (base : list invocation) (s s' : state) :
  sourced R base s → run c tr s = Some s' →
  sourced (R ++ payloads tr) base s'.
Proof.
  revert R s. induction tr as [|e tr IH]; intros R s Hs Hrun; simpl in Hrun.
  - injection Hrun as <-. by rewrite app_nil_r.
  - destruct (step c e s) as [s1|] eqn:Hst; [|discriminate].
    pose proof (sourced_step c e R base s s1 Hs Hst) as Hs1.
    pose proof (IH _ _ Hs1 Hrun) as Hs'.
    replace (payloads (e :: tr)) with (payloads [e] ++ payloads tr)
      by (unfold payloads; simpl; by destruct e).
    by rewrite app_assoc.
Qed.

(** *** Which branches call [func] *)

(** A property of calls of [func] that holds for the branches that are
    switched on holds for every call made. *)
Lemma edges_step (c : config) (P : invocation → Prop) (e : event) (s s' : state) :
  (leading c = true → ∀ t this args, P (Invocation t this args Leading)) →
  (trailing c = true → ∀ t this args, P (Invocation t this args Trailing)) →
  Forall P (invoked s) → step c e s = Some s' → Forall P (invoked s').
Proof.
  intros Hl Ht Hall Hstep.
  destruct (step_invoked c e s s' Hstep)
    as [[-> _] | [(t & this & args & _ & Hlead & _ & _ & ->)
                 | (i & t & tm & _ & Htr & _ & _ & _ & _ & _ & _ & ->)]];
    [done | |]; simpl; apply Forall_app; (split; [done|]);
    apply Forall_singleton; [by apply Hl | by apply Ht].
Qed.

Lemma edges_run (c : config) (P : invocation → Prop) (tr : list event) (s s' : state) :
  (leading c = true → ∀ t this args, P (Invocation t this args Leading)) →
  (trailing c = true → ∀ t this args, P (Invocation t this args Trailing)) →
  Forall P (invoked s) → run c tr s = Some s' → Forall P (invoked s').
Proof.
  intros Hl Ht. revert s. induction tr as [|e tr IH]; intros s Hall Hrun;
    simpl in Hrun.
  - by injection Hrun as <-.
  - destruct (step c e s) as [s1|] eqn:Hs; [|discriminate].
    eapply IH; [|exact Hrun]. by eapply edges_step.
Qed.

(** *** Counting calls of [func] against calls of the wrapper *)

Definition has_leading (l : list frame) : bool :=
  existsb (λ k, match k with AfterLeading _ _ => true | AfterTrailing => false end) l.

(** The trailing call a pending timer stands for. *)
Definition owed (c : config) (s : state) : nat :=
  match timers s with
  | [] => 0
  | _ :: _ => if trailing c && is_set (lastFn s) then 1 else 0
  end.

(** With the trailing edge on: [lastFn] is only set while [inThrottle] is
    true; while a leading call of [func] is in progress it is only set
    together with a timer; and the calls of [func] made and owed are at
    most [n]. *)
Definition fair (c : config) (n : nat) (s : state) : Prop :=
  (trailing c = true → truthy (inThrottle s) = false → is_set (lastFn s) = false) ∧
  (trailing c = true → has_leading (frames s) = true →
   is_set (lastFn s) = true → timers s ≠ []) ∧
  (length (invoked s) + owed c s <= n)%nat.

Lemma owed_le_1 (c : config) (s : state) : (owed c s <= 1)%nat.
Proof.
  unfold owed. destruct (timers s); [lia|].
  destruct (trailing c && is_set (lastFn s)); lia.
Qed.

Lemma rearm_not_nil (c : config) (this : Ctx) (args : Args) (s : state) :
  timers (rearm c this args s) ≠ [].
Proof. unfold rearm. simpl. intros H. by apply app_eq_nil in H as [_ ?]. Qed.

Lemma fair_step (c : config) (e : event) (n : nat) (s s' : state) :
  tidy s → fair c n s → step c e s = Some s' →
  fair c (n + (if is_call e then 1 else 0)) s'.
Proof.
  intros [_ H1] (HJ & HL & Hn) Hstep.
  destruct e as [t this args | t | t | i t | t]; simpl in Hstep.
  - destruct (clock s <=? t); [|discriminate]. injection Hstep as <-.
    simpl (if is_call _ then _ else _).
    assert (Hre : ∀ s1, truthy (inThrottle s1) = true →
                        invoked s1 = invoked s →
                        fair c (n + 1) (rearm c this args s1)).
    { intros s1 Hin Hinv. split; [|split].
      - intros _ Hf. simpl in Hf. congruence.
      - intros _ _ _. apply rearm_not_nil.
      - pose proof (owed_le_1 c (rearm c this args s1)) as Ho.
        change (invoked (rearm c this args s1)) with (invoked s1).
        rewrite Hinv. lia. }
    unfold throttled. simpl. destruct (truthy (inThrottle s)) eqn:Hin; simpl.
    + by apply Hre.
    + destruct (leading c); [|by apply Hre].
      split; [|split]; simpl.
      * intros Htr _. by apply HJ.
      * intros Htr _ Hfn. rewrite (HJ Htr eq_refl) in Hfn. discriminate.
      * rewrite length_app. simpl. unfold owed in *. simpl. lia.
  - destruct (frames s) as [|k rest] eqn:Hf; [discriminate|].
    destruct (clock s <=? t); [|discriminate]. injection Hstep as <-.
    simpl (if is_call _ then _ else _). rewrite Nat.add_0_r.
    destruct k as [this args|]; simpl.
    + split; [|split].
      * intros _ Hin. simpl in Hin. discriminate.
      * intros _ _ _. apply rearm_not_nil.
      * change (invoked (rearm c this args _)) with (invoked s).
        unfold owed at 1.
        destruct (timers (rearm c this args _)); [lia|].
        change (lastFn (rearm c this args _)) with (lastFn s).
        destruct (trailing c && is_set (lastFn s)) eqn:E; [|lia].
        apply andb_true_iff in E as [Htr Hfn].
        assert (Hne : timers s ≠ []) by (by apply HL).
        unfold owed in Hn. destruct (timers s); [done|].
        rewrite Htr, Hfn in Hn. simpl in Hn. lia.
    + split; [|split]; simpl.
      * done.
      * intros _ _ Hfn. discriminate.
      * unfold owed in *. simpl. destruct (timers s); [lia|].
        rewrite andb_false_r. lia.
  - destruct (frames s) as [|k rest] eqn:Hf; [discriminate|].
    destruct (clock s <=? t); [|discriminate]. injection Hstep as <-.
    simpl (if is_call _ then _ else _). rewrite Nat.add_0_r.
    split; [|split]; simpl.
    + exact HJ.
    + intros Htr Hl Hfn. apply HL; [done| |done]. simpl. rewrite Hl.
      by rewrite orb_true_r.
    + exact Hn.
  - destruct (frames s) as [|k rest] eqn:Hf; [|discriminate].
    destruct (find_timer i (timers s)) as [tm|] eqn:Hfind; [|discriminate].
    destruct ((clock s <=? t) && (timer_due tm <=? t)); [|discriminate].
    injection Hstep as <-.
    simpl (if is_call _ then _ else _). rewrite Nat.add_0_r.
    assert (Hnil : filter (λ x, timer_id x ≠ i) (timers s) = []).
    { destruct H1 as [Ht | (tm' & Ht & _)]; rewrite Ht in *; [done|].
      apply find_timer_single in Hfind as [_ <-]. apply filter_single_own. }
    assert (Hne : timers s ≠ []).
    { apply find_timer_elem in Hfind as [Hin _]. intros E. rewrite E in Hin.
      inversion Hin. }
    unfold on_timeout. simpl.
    destruct (trailing c && is_set (lastFn s)) eqn:E; simpl.
    + split; [|split]; simpl.
      * exact HJ.
      * rewrite Hf. simpl. discriminate.
      * rewrite length_app. simpl. unfold owed in *. simpl. rewrite Hnil.
        destruct (timers s); [done|]. rewrite E in Hn. lia.
    + split; [|split]; simpl.
      * intros Htr _. rewrite Htr in E. simpl in E. exact E.
      * rewrite Hf. simpl. discriminate.
      * unfold owed in *. simpl. rewrite Hnil. lia.
  - destruct (clock s <=? t); [|discriminate]. injection Hstep as <-.
    simpl (if is_call _ then _ else _). rewrite Nat.add_0_r.
    split; [|split]; simpl.
    + done.
    + intros _ _ Hfn. discriminate.
    + unfold owed in *. simpl.
      pose proof (clear_own_timer_nil (advance t s) H1) as Hnil.
      simpl in Hnil. rewrite Hnil. lia.
Qed.

Lemma call_times_cons (e : event) (tr : list event) :
  length (call_times (e :: tr))
  = ((if is_call e then 1 else 0) + length (call_times tr))%nat.
Proof. destruct e; reflexivity. Qed.

Lemma fair_run (c : config) (tr : list event) (n : nat) (s s' : state) :
  tidy s → fair c n s → run c tr s = Some s' →
  fair c (n + length (call_times tr)) s'.
Proof.
  revert n s. induction tr as [|e tr IH]; intros n s Ht Hf Hrun; simpl in Hrun.
  - injection Hrun as <-. simpl. by rewrite Nat.add_0_r.
  - destruct (step c e s) as [s1|] eqn:Hs; [|discriminate].
    pose proof (fair_step c e n s s1 Ht Hf Hs) as H1.
    pose proof (IH _ s1 (step_tidy c e s s1 Ht Hs) H1 Hrun) as H2.
    rewrite call_times_cons, Nat.add_assoc. exact H2.
Qed.

(** *** Runs in which [func] returns and calls nothing *)

(** In such a run there is at most one call of [func] in progress.  At top
    level a timer is pending exactly while [inThrottle] is true, and it is
    due no earlier than the delay after every call of [func] made so far;
    while [func] runs no timer is pending. *)
Definition shape (c : config) (s : state) : Prop :=
  match frames s with
  | [] =>
      (timers s = [] ∧ truthy (inThrottle s) = false) ∨
      (∃ tm, timers s = [tm] ∧ timeoutId s = Val (timer_id tm) ∧
             truthy (inThrottle s) = true ∧
             ∀ a, a ∈ invoked s →
                  inv_time a + host_delay (wait c) <= timer_due tm)
  | [AfterLeading _ _] => timers s = [] ∧ truthy (inThrottle s) = false
  | [AfterTrailing] => timers s = []
  | _ => False
  end.

Definition wfc (c : config) (s : state) : Prop :=
  (∀ a, a ∈ invoked s → inv_time a <= clock s) ∧ shape c s.

Lemma wfc_one_timer (c : config) (s : state) : wfc c s → one_timer s.
Proof.
  intros [_ H]. unfold shape in H.
  destruct (frames s) as [|[th ar|] [|k l]]; try done.
  - destruct H as [[H _] | (tm & H1 & H2 & _)]; [by left | right; by exists tm].
  - left. by destruct H.
  - by left.
Qed.

Lemma wfc_init (c : config) (t0 : Z) : wfc c (init t0).
Proof. split; [intros a Ha; inversion Ha | by left]. Qed.

Lemma shape_rearm (c : config) (this : Ctx) (args : Args) (s : state) :
  one_timer s → frames s = [] → truthy (inThrottle s) = true →
  (∀ a, a ∈ invoked s → inv_time a <= clock s) →
  shape c (rearm c this args s).
Proof.
  intros Ho Hfr Hin Hle. unfold shape.
  change (frames (rearm c this args s)) with (frames s). rewrite Hfr.
  right. eexists. split; [by apply rearm_timers|]. simpl.
  split; [done|]. split; [done|]. intros a Ha. specialize (Hle a Ha). lia.
Qed.

Lemma wfc_step (c : config) (e : event) (s s' : state) :
  polite e s = true → wfc c s → step c e s = Some s' → wfc c s'.
Proof.
  intros Hpol Hwf Hstep. pose proof (wfc_one_timer c s Hwf) as H1.
  assert (Htidy : tidy s) by (split; [by destruct Hwf | done]).
  destruct (step_tidy c e s s' Htidy Hstep) as [Hle' _].
  split; [exact Hle'|]. destruct Hwf as [Hle Hsh].
  destruct e as [t this args | t | t | i t | t]; simpl in Hstep;
    unfold polite in Hpol.
  - destruct (frames s) as [|k l] eqn:Hf; [|discriminate].
    destruct (clock s <=? t) eqn:E; [|discriminate]. injection Hstep as <-.
    assert (Hle2 : ∀ a, a ∈ invoked s → inv_time a <= t)
      by (intros a Ha; specialize (Hle a Ha); lia).
    unfold shape in Hsh. rewrite Hf in Hsh.
    unfold throttled. simpl. destruct (truthy (inThrottle s)) eqn:Hin; simpl.
    + by apply shape_rearm.
    + destruct (leading c); [|by apply shape_rearm].
      unfold shape. simpl. rewrite Hf.
      destruct Hsh as [[Ht _] | (tm & _ & _ & ? & _)]; [done | congruence].
  - destruct (frames s) as [|k l] eqn:Hf; [discriminate|].
    destruct (clock s <=? t) eqn:E; [|discriminate]. injection Hstep as <-.
    unfold shape in Hsh. rewrite Hf in Hsh.
    destruct k as [this args|]; destruct l as [|k' l']; try done.
    + apply shape_rearm; [done..|]. simpl. intros a Ha.
      specialize (Hle a Ha). lia.
    + unfold shape. simpl. by left.
  - discriminate.
  - destruct (frames s) as [|k l] eqn:Hf; [|discriminate].
    destruct (find_timer i (timers s)) as [tm|] eqn:Hfind; [|discriminate].
    destruct ((clock s <=? t) && (timer_due tm <=? t)); [|discriminate].
    injection Hstep as <-.
    assert (Hnil : filter (λ x, timer_id x ≠ i) (timers s) = []).
    { destruct H1 as [Ht | (tm' & Ht & _)]; rewrite Ht in *; [done|].
      apply find_timer_single in Hfind as [_ <-]. apply filter_single_own. }
    unfold on_timeout, shape. simpl.
    destruct (trailing c && is_set (lastFn s)); simpl; rewrite Hf;
      [exact Hnil | by left].
  - destruct (frames s) as [|k l] eqn:Hf; [|discriminate].
    destruct (clock s <=? t) eqn:E; [|discriminate]. injection Hstep as <-.
    unfold shape. simpl. rewrite Hf. left. split; [|done].
    exact (clear_own_timer_nil (advance t s) H1).
Qed.

Lemma wfc_run (c : config) (tr : list event) (s s' : state) :
  calm c tr s = true → wfc c s → run c tr s = Some s' → wfc c s'.
Proof.
  revert s. induction tr as [|e tr IH]; intros s Hc Hwf Hrun;
    simpl in Hrun, Hc.
  - by injection Hrun as <-.
  - destruct (step c e s) as [s1|] eqn:Hs; [|discriminate].
    apply andb_true_iff in Hc as [Hp Hc].
    eapply IH; [exact Hc | | exact Hrun]. by eapply wfc_step.
Qed.

Lemma calm_app (c : config) (tr1 tr2 : list event) (s : state) :
  calm c (tr1 ++ tr2) s = true → calm c tr1 s = true.
Proof.
  revert s. induction tr1 as [|e tr1 IH]; intros s Hc; [done|].
  simpl in *. apply andb_true_iff in Hc as [Hp Hc]. rewrite Hp. simpl.
  destruct (step c e s); [by apply IH | done].
Qed.

(** What an enabled [Fire] looks like in such a run. *)
Lemma fire_inv (c : config) (i : nat) (t : Z) (s s' : state) :
  wfc c s → step c (Fire i t) s = Some s' →
  ∃ tm, frames s = [] ∧ timers s = [tm] ∧ timer_id tm = i ∧
        clock s <= t ∧ timer_due tm <= t ∧
        (∀ a, a ∈ invoked s → inv_time a + host_delay (wait c) <= timer_due tm) ∧
        timers s' = [] ∧ clock s' = t ∧
        ((trailing c && is_set (lastFn s) = true ∧
          frames s' = [AfterTrailing] ∧
          invoked s' = invoked s ++
                       [Invocation t (timer_this tm) (timer_args tm) Trailing]) ∨
         (frames s' = [] ∧ invoked s' = invoked s ∧
          truthy (inThrottle s') = false)).
Proof.
  intros [_ Hsh] Hstep. simpl in Hstep. unfold shape in Hsh.
  destruct (frames s) as [|k l] eqn:Hf; [|discriminate].
  destruct (find_timer i (timers s)) as [tm|] eqn:Hfind; [|discriminate].
  destruct (clock s <=? t) eqn:E1; [|discriminate].
  destruct (timer_due tm <=? t) eqn:E2; [|discriminate].
  simpl in Hstep. injection Hstep as <-.
  destruct Hsh as [[Ht _] | (tm' & Ht & _ & _ & Hdue)]; rewrite Ht in Hfind.
  { by rewrite find_timer_nil in Hfind. }
  apply find_timer_single in Hfind as [-> <-].
  exists tm'. split; [done|]. split; [done|]. split; [done|].
  split; [lia|]. split; [lia|]. split; [done|].
  unfold on_timeout. simpl.
  destruct (trailing c && is_set (lastFn s)); simpl;
    rewrite Ht, filter_single_own, Hf.
  - split; [done|]. split; [done|]. by left.
  - split; [done|]. split; [done|]. by right.
Qed.

(** *** Such runs keep calls of [func] apart *)

Lemma spaced_snoc (w : Z) (log : list invocation) (b : invocation) :
  spaced w log →
  (∀ a, a ∈ log → ¬ (inv_edge a = Trailing ∧ inv_edge b = Leading) →
        inv_time a + w <= inv_time b) →
  spaced w (log ++ [b]).
Proof.
  intros Hsp Hb i j a b' Hij Hi Hj Hne.
  destruct (decide (j < length log)%nat) as [Hlt | Hge].
  - rewrite lookup_app_l in Hj by done.
    rewrite lookup_app_l in Hi by lia.
    exact (Hsp i j a b' Hij Hi Hj Hne).
  - rewrite lookup_app_r in Hj by lia.
    apply list_lookup_singleton_Some in Hj as [Hj ->].
    rewrite lookup_app_l in Hi by lia.
    apply Hb; [|done]. by eapply list_elem_of_lookup_2.
Qed.

(** Every leading call lies at least the delay back. *)
Definition leading_past (c : config) (s : state) : Prop :=
  ∀ a, a ∈ invoked s → inv_edge a = Leading →
       inv_time a + host_delay (wait c) <= clock s.

(** That holds at top level outside a throttled period, and while the
    trailing call is in progress. *)
Definition rested (c : config) (s : state) : Prop :=
  match frames s with
  | [] => truthy (inThrottle s) = false → leading_past c s
  | [AfterTrailing] => leading_past c s
  | _ => True
  end.

Definition paced (c : config) (s : state) : Prop :=
  wfc c s ∧ rested c s ∧ spaced (host_delay (wait c)) (invoked s).

Lemma paced_init (c : config) (t0 : Z) : paced c (init t0).
Proof.
  split; [apply wfc_init|]. split.
  - intros _ a Ha. inversion Ha.
  - intros i j a b _ Hi. simpl in Hi. by rewrite lookup_nil in Hi.
Qed.

Lemma paced_step (c : config) (e : event) (s s' : state) :
  polite e s = true → is_cancel e = false →
  paced c s → step c e s = Some s' → paced c s'.
Proof.
  intros Hpol Hnc (Hwf & Hrest & Hsp) Hstep.
  split; [by eapply wfc_step|].
  destruct e as [t this args | t | t | i t | t]; try discriminate.
  - unfold polite in Hpol. simpl in Hstep.
    destruct (frames s) as [|k l] eqn:Hf; [|discriminate].
    destruct (clock s <=? t) eqn:E; [|discriminate]. injection Hstep as <-.
    unfold rested in Hrest. rewrite Hf in Hrest.
    unfold throttled. simpl.
    destruct (truthy (inThrottle s)) eqn:Hin; simpl.
    + split; [|exact Hsp]. unfold rested. simpl. rewrite Hf. simpl.
      intros ?. congruence.
    + destruct (leading c); simpl.
      * split; [by unfold rested|].
        apply spaced_snoc; [exact Hsp|]. simpl. intros a Ha Hne.
        assert (inv_edge a = Leading) as Hl.
        { destruct (inv_edge a); [done|]. by destruct Hne. }
        specialize (Hrest eq_refl a Ha Hl). lia.
      * split; [|exact Hsp]. unfold rested. simpl. rewrite Hf. simpl.
        intros ?. discriminate.
  - simpl in Hstep. destruct (frames s) as [|k l] eqn:Hf; [discriminate|].
    destruct (clock s <=? t) eqn:E; [|discriminate]. injection Hstep as <-.
    destruct Hwf as [_ Hsh]. unfold shape in Hsh. rewrite Hf in Hsh.
    unfold rested in Hrest. rewrite Hf in Hrest.
    destruct k as [this args|]; destruct l as [|k' l']; try done.
    split; [|exact Hsp]. unfold rested. simpl. intros _ a Ha Hl.
    specialize (Hrest a Ha Hl). simpl. lia.
  - destruct (fire_inv c i t s s' Hwf Hstep)
      as (tm & Hf & Ht & Hi & Hclk & Hdue & Hlog & Ht' & Hc'
          & [(_ & Hf' & Hinv) | (Hf' & Hinv & Hin')]).
    + split.
      * unfold rested, leading_past. rewrite Hf', Hinv, Hc'. intros a Ha Hl.
        apply elem_of_app in Ha as [Ha | Ha].
        -- specialize (Hlog a Ha). lia.
        -- apply list_elem_of_singleton in Ha. subst a. discriminate.
      * rewrite Hinv. apply spaced_snoc; [exact Hsp|]. simpl. intros a Ha _.
        specialize (Hlog a Ha). lia.
    + split; [|by rewrite Hinv].
      unfold rested, leading_past. rewrite Hf', Hinv, Hc'. intros _ a Ha Hl.
      specialize (Hlog a Ha). lia.
Qed.

Lemma paced_run (c : config) (tr : list event) (s s' : state) :
  Forall (λ e, is_cancel e = false) tr → calm c tr s = true →
  paced c s → run c tr s = Some s' → paced c s'.
Proof.
  intros Hnc. revert s.
  induction Hnc as [|e tr He _ IH]; intros s Hc Hp Hrun; simpl in Hrun, Hc.
  - by injection Hrun as <-.
  - destruct (step c e s) as [s1|] eqn:Hs; [|discriminate].
    apply andb_true_iff in Hc as [Hpol Hc].
    eapply IH; [exact Hc | | exact Hrun]. by eapply paced_step.
Qed.

(** *** Such runs fire a timer only after silence *)

(** No call in [T] is later than the clock, and a pending timer is due at
    least the delay after each of them. *)
Definition quiet (c : config) (T : list Z) (s : state) : Prop :=
  (∀ t, t ∈ T → t <= clock s) ∧
  (∀ tm t, tm ∈ timers s → t ∈ T →
           t + host_delay (wait c) <= timer_due tm).

Lemma quiet_step (c : config) (e : event) (T : list Z) (s s' : state) :
  polite e s = true → wfc c s → quiet c T s → step c e s = Some s' →
  quiet c (T ++ call_times [e]) s'.
Proof.
  intros Hpol Hwf [Hclk Hdue] Hstep.
  pose proof (wfc_one_timer c s Hwf) as H1.
  pose proof (step_clock c e s s' Hstep) as Hmono.
  destruct e as [t this args | t | t | i t | t]; try discriminate.
  - unfold polite in Hpol. simpl in Hstep.
    destruct (frames s) as [|k l] eqn:Hf; [|discriminate].
    destruct (clock s <=? t) eqn:E; [|discriminate]. injection Hstep as <-.
    assert (Hall : ∀ u, u ∈ T ++ call_times [Call t this args] → u <= t).
    { intros u Hu. apply elem_of_app in Hu as [Hu | Hu].
      - specialize (Hclk u Hu). lia.
      - apply list_elem_of_singleton in Hu. lia. }
    assert (Hre : ∀ s1, one_timer s1 → clock s1 = t →
                        quiet c (T ++ call_times [Call t this args])
                          (rearm c this args s1)).
    { intros s1 Ho Hc. split.
      - intros u Hu. simpl. rewrite Hc. by apply Hall.
      - intros tm u Htm Hu. rewrite rearm_timers in Htm by done.
        apply list_elem_of_singleton in Htm. subst tm. simpl. rewrite Hc.
        specialize (Hall u Hu). lia. }
    unfold throttled. simpl. destruct (truthy (inThrottle s)) eqn:Hin; simpl.
    + by apply Hre.
    + destruct (leading c); [|by apply Hre].
      destruct Hwf as [_ Hsh]. unfold shape in Hsh. rewrite Hf in Hsh.
      destruct Hsh as [[Ht _] | (tm & _ & _ & ? & _)]; [|congruence].
      split; simpl.
      * exact Hall.
      * intros tm u Htm. rewrite Ht in Htm. inversion Htm.
  - simpl in Hstep. destruct (frames s) as [|k l] eqn:Hf; [discriminate|].
    destruct (clock s <=? t) eqn:E; [|discriminate]. injection Hstep as <-.
    assert (Hp : call_times [Return t] = []) by reflexivity.
    rewrite Hp, app_nil_r. destruct k as [this args|]; simpl.
    + split.
      * intros u Hu. simpl. specialize (Hclk u Hu). lia.
      * intros tm u Htm Hu. rewrite rearm_timers in Htm by done.
        apply list_elem_of_singleton in Htm. subst tm. simpl.
        specialize (Hclk u Hu). lia.
    + split; simpl.
      * intros u Hu. specialize (Hclk u Hu). lia.
      * exact Hdue.
  - destruct (fire_inv c i t s s' Hwf Hstep)
      as (tm & _ & _ & _ & Hc & _ & _ & Ht' & Hc' & _).
    assert (Hp : call_times [Fire i t] = []) by reflexivity.
    rewrite Hp, app_nil_r. split.
    + intros u Hu. specialize (Hclk u Hu). lia.
    + intros tm' u Htm. rewrite Ht' in Htm. inversion Htm.
  - simpl in Hstep. destruct (clock s <=? t) eqn:E; [|discriminate].
    injection Hstep as <-.
    assert (Hp : call_times [Cancel t] = []) by reflexivity.
    rewrite Hp, app_nil_r. split; simpl.
    + intros u Hu. specialize (Hclk u Hu). lia.
    + intros tm u Htm.
      pose proof (clear_own_timer_nil (advance t s) H1) as Hnil.
      simpl in Hnil. rewrite Hnil in Htm. inversion Htm.
Qed.

Lemma quiet_run (c : config) (tr : list event) (T : list Z) (s s' : state) :
  calm c tr s = true → wfc c s → quiet c T s → run c tr s = Some s' →
  wfc c s' ∧ quiet c (T ++ call_times tr) s'.
Proof.
  revert T s. induction tr as [|e tr IH]; intros T s Hc Hwf Hq Hrun;
    simpl in Hrun, Hc.
  - injection Hrun as <-. by rewrite app_nil_r.
  - destruct (step c e s) as [s1|] eqn:Hs; [|discriminate].
    apply andb_true_iff in Hc as [Hpol Hc].
    replace (call_times (e :: tr)) with (call_times [e] ++ call_times tr)
      by (unfold call_times; simpl; by destruct e).
    rewrite app_assoc.
    apply (IH _ s1); [done | by eapply wfc_step | by eapply quiet_step | done].
Qed.

(** *** Calls inside a throttled period *)



(** The only pending timer runs at top level. *)
Lemma fire_single (c : config) (i : nat) (d tf : Z) (this : Ctx) (args : Args)
      (s : state) :
  frames s = [] → timers s = [Timer i d this args] →
  clock s <= tf → d <= tf →
  step c (Fire i tf) s
  = Some (on_timeout c this args (drop_timer i (advance tf s))) ∧
  timers (drop_timer i (advance tf s)) = [].
Proof.
  intros Hf Ht Hc Hd. unfold step. rewrite Hf, Ht. unfold find_timer. simpl.
  rewrite decide_True by done. simpl.
  destruct (clock s <=? tf) eqn:E1; [|lia].
  destruct (d <=? tf) eqn:E2; [|lia]. split; [reflexivity|].
  rewrite Ht, filter_cons. simpl. by rewrite decide_False by (intros H; by apply H).
Qed.

Lemma fire_invokes (c : config) (i : nat) (d tf : Z) (this : Ctx) (args : Args)
      (s : state) :
  frames s = [] → timers s = [Timer i d this args] →
  clock s <= tf → d <= tf →
  trailing c = true → is_set (lastFn s) = true →
  ∃ s2, step c (Fire i tf) s = Some s2 ∧
        invoked s2 = invoked s ++ [Invocation tf this args Trailing] ∧
        timers s2 = [] ∧ frames s2 = [AfterTrailing] ∧ clock s2 = tf.
Proof.
  intros Hf Ht Hc Hd Htr Hfn.
  destruct (fire_single c i d tf this args s Hf Ht Hc Hd) as [Hfire Hnil].
  eexists. split; [exact Hfire|]. unfold on_timeout.
  assert (Hfn' : is_set (lastFn (drop_timer i (advance tf s))) = true) by done.
  rewrite Htr, Hfn'. simpl. simpl in Hnil. by rewrite Hnil, Hf.
Qed.

Lemma return_after_trailing (c : config) (s : state) (t : Z) :
  frames s = [AfterTrailing] → clock s <= t →
  ∃ s', step c (Return t) s = Some s' ∧
        invoked s' = invoked s ∧ timers s' = timers s ∧ frames s' = [] ∧
        truthy (inThrottle s') = false ∧ lastFn s' = Null.
Proof.
  intros Hf Hc. eexists. split.
  - simpl. rewrite Hf. destruct (clock s <=? t) eqn:E; [reflexivity | lia].
  - done.
Qed.

Lemma return_after_leading (c : config) (s : state) (t : Z) (this : Ctx) (args : Args) :
  one_timer s → frames s = [AfterLeading this args] → clock s <= t →
  ∃ s', step c (Return t) s = Some s' ∧
        invoked s' = invoked s ∧ frames s' = [] ∧
        truthy (inThrottle s') = true ∧
        timers s' = [Timer (next_timer s) (t + host_delay (wait c)) this args].
Proof.
  intros H1 Hf Hc. eexists. split.
  - simpl. rewrite Hf. destruct (clock s <=? t) eqn:E; [reflexivity | lia].
  - split; [done|]. split; [done|]. split; [done|].
    exact (rearm_timers c this args
             (set_inThrottle true (set_frames [] (advance t s))) H1).
Qed.



(** *** The claims about the wrapper *)

(** C2, as amended.  Take a wait of at most 2^31-1 ms and a run of calls to
    the wrapper and timer callbacks in which [cancel] is not used and
    [func] returns normally without calling the wrapper.  Then any two
    calls of [func] are at least [wait] ms apart, unless the earlier one is a
    trailing call and the later one the leading call of the next throttled
    period. *)
Theorem throttle_spaces_invocations (w : Z) (o : options) (c : config)
        (t0 : Z) (tr : list event) (s : state) :
  throttle w o = inr c → w <= max_delay →
  Forall (λ e, is_cancel e = false) tr →
  calm c tr (init t0) = true →
  run c tr (init t0) = Some s →
  spaced w (invoked s).
Proof.
  intros Hc Hw Hnc Hcalm Hrun.
  apply throttle_inr in Hc as (_ & <- & _).
  destruct (paced_run c tr (init t0) s Hnc Hcalm (paced_init c t0) Hrun)
    as (_ & _ & H).
  by rewrite host_delay_in_range in H.
Qed.

(** C5.  With [leading: true], a call to the wrapper made while it is not
    in a throttled state calls [func] within that call, once, with the
    [this] and the arguments of that call. *)
Theorem leading_call_invokes_immediately (w : Z) (o : options) (c : config)
        (s : state) (t : Z) (this : Ctx) (args : Args) :
  throttle w o = inr c → opt_leading o = Val true →
  reachable c s → truthy (inThrottle s) = false → clock s <= t →
  ∃ s', step c (Call t this args) s = Some s' ∧
        invoked s' = invoked s ++ [Invocation t this args Leading].
Proof.
  intros Hc Hl Hr Hidle Hclk.
  apply throttle_inr in Hc as (_ & _ & Hlead & _). rewrite Hl in Hlead.
  simpl in Hlead. eexists. split.
  - simpl. destruct (clock s <=? t) eqn:E; [reflexivity | lia].
  - unfold throttled. simpl. by rewrite Hidle, Hlead.
Qed.


(** C7, as amended.  [cancel()] called from outside [func] removes the
    pending timer and resets [inThrottle], [lastFn] and [lastTime] without
    calling [func].  Whatever happens afterwards, every later call of [func]
    carries the [this] and the arguments of a call to the wrapper made after
    the cancel; and the next call to the wrapper starts a throttled period
    of its own: with [leading] it calls [func] at once and sets its timer
    when [func] returns, without [leading] it sets its timer at once. *)
Theorem cancel_discards_pending_call (c : config) (s : state) (t : Z) :
  reachable c s → frames s = [] → clock s <= t →
  ∃ s0, step c (Cancel t) s = Some s0 ∧
        timers s0 = [] ∧ inThrottle s0 = Val false ∧
        lastFn s0 = Null ∧ lastTime s0 = Null ∧
        invoked s0 = invoked s ∧
        (∀ tr s', run c tr s0 = Some s' →
           ∃ new, invoked s' = invoked s ++ new ∧
                  ∀ a, a ∈ new → ∃ t', Call t' (inv_this a) (inv_args a) ∈ tr) ∧
        (∀ t' this args, t <= t' →
           ∃ s', step c (Call t' this args) s0 = Some s' ∧
                 if leading c
                 then invoked s' = invoked s ++ [Invocation t' this args Leading] ∧
                      frames s' = [AfterLeading this args] ∧
                      ∀ tr, t' <= tr →
                        ∃ s'' i, step c (Return tr) s' = Some s'' ∧
                                 invoked s'' = invoked s' ∧
                                 truthy (inThrottle s'') = true ∧
                                 timers s'' =
                                   [Timer i (tr + host_delay (wait c)) this args]
                 else invoked s' = invoked s ∧
                      truthy (inThrottle s') = true ∧
                      ∃ i, timers s' =
                             [Timer i (t' + host_delay (wait c)) this args]).
Proof.
  intros Hr Hfr Hclk. destruct (tidy_reachable c s Hr) as [_ H1].
  pose proof (clear_own_timer_nil (advance t s) H1) as Hnil.
  exists (cancel (advance t s)). split.
  { simpl. destruct (clock s <=? t) eqn:E; [reflexivity | lia]. }
  split; [exact Hnil|]. do 4 (split; [reflexivity|]). split.
  - intros tr s' Hrun.
    assert (Hs : sourced [] (invoked s) (cancel (advance t s))).
    { split; [|split].
      - exists []. split; [by rewrite app_nil_r|]. intros a Ha. inversion Ha.
      - intros tm Hin. simpl in Hnil, Hin. rewrite Hnil in Hin. inversion Hin.
      - intros th ar Hin. simpl in Hin. rewrite Hfr in Hin. inversion Hin. }
    destruct (sourced_run c tr [] _ _ s' Hs Hrun) as [(new & Hn & Hnew) _].
    exists new. split; [done|]. intros a Ha.
    apply elem_of_payloads. by apply Hnew.
  - intros t' this args Ht'. eexists. split.
    { simpl. destruct (t <=? t') eqn:E; [reflexivity | lia]. }
    assert (Ho : one_timer (cancel (advance t s))) by by left.
    unfold throttled. simpl. destruct (leading c) eqn:Hl.
    + split; [done|]. split; [by simpl; rewrite Hfr|]. intros tr Htr.
      set (s' := apply_func Leading this args (AfterLeading this args)
                   (advance t' (cancel (advance t s)))).
      destruct (return_after_leading c s' tr this args)
        as (s'' & Hst & Hi & _ & Hin' & Htm');
        [exact Ho | by simpl; rewrite Hfr | simpl; lia |].
      exists s'', (next_timer s). done.
    + split; [done|]. split; [done|]. exists (next_timer s).
      exact (rearm_timers c this args
               (set_inThrottle true (remember (advance t' (cancel (advance t s)))))
               Ho).
Qed.

(** X1.  In every state the wrapper reaches, the host holds at most one
    timer of it, the one named by [throttled.timeoutId].  In a run in which
    [func] returns normally without calling the wrapper, at top level a
    timer is pending exactly while [inThrottle] is true. *)
Theorem one_timer_while_throttled (c : config) (t0 : Z) (tr : list event) (s : state) :
  run c tr (init t0) = Some s →
  (timers s = [] ∨ ∃ tm, timers s = [tm] ∧ timeoutId s = Val (timer_id tm)) ∧
  (calm c tr (init t0) = true → frames s = [] →
   (timers s = [] ∧ truthy (inThrottle s) = false) ∨
   (∃ tm, timers s = [tm] ∧ timeoutId s = Val (timer_id tm) ∧
          truthy (inThrottle s) = true)).
Proof.
  intros Hrun. split.
  - by destruct (run_tidy c tr (init t0) s (tidy_init t0) Hrun) as [_ ?].
  - intros Hcalm Hf.
    destruct (wfc_run c tr (init t0) s Hcalm (wfc_init c t0) Hrun) as [_ Hsh].
    unfold shape in Hsh. rewrite Hf in Hsh.
    destruct Hsh as [H | (tm & H1 & H2 & H3 & _)]; [by left | right; by exists tm].
Qed.

(** X2.  [func] is never called more often than the wrapper: a call to the
    wrapper leads to at most one call of [func]. *)
Theorem invocations_at_most_calls (c : config) (t0 : Z) (tr : list event) (s : state) :
  run c tr (init t0) = Some s →
  (length (invoked s) <= length (call_times tr))%nat.
Proof.
  intros Hrun.
  assert (Hf : fair c 0 (init t0)).
  { split; [done|]. split; [|unfold owed; simpl; lia]. intros _ H. discriminate. }
  destruct (fair_run c tr 0 (init t0) s (tidy_init t0) Hf Hrun) as (_ & _ & H).
  simpl in H. lia.
Qed.

(** X3.  Every call of [func] passes on the [this] and the arguments of some
    call to the wrapper. *)
Theorem invocations_come_from_calls (c : config) (t0 : Z) (tr : list event)
        (s : state) (a : invocation) :
  run c tr (init t0) = Some s → a ∈ invoked s →
  ∃ t, Call t (inv_this a) (inv_args a) ∈ tr.
Proof.
  intros Hrun Ha.
  assert (Hs : sourced [] [] (init t0)).
  { split; [|split].
    - exists []. split; [done|]. intros x Hx. inversion Hx.
    - intros tm Hin. inversion Hin.
    - intros th ar Hin. inversion Hin. }
  destruct (sourced_run c tr [] [] (init t0) s Hs Hrun) as [(new & Hn & Hnew) _].
  simpl in Hn. rewrite Hn in Ha. apply elem_of_payloads. by apply Hnew.
Qed.

(** X4.  Take a wait of at most 2^31-1 ms and a run in which only one of
    [leading] and [trailing] is switched on, [cancel] is not used and
    [func] returns normally without calling the wrapper.  Then any two
    calls of [func] are at least [wait] ms apart. *)
Theorem single_edge_once_per_window (c : config) (t0 : Z) (tr : list event) (s : state) :
  leading c = false ∨ trailing c = false →
  wait c <= max_delay →
  Forall (λ e, is_cancel e = false) tr →
  calm c tr (init t0) = true →
  run c tr (init t0) = Some s →
  once_per_window (wait c) (invoked s).
Proof.
  intros Hone Hw Hnc Hcalm Hrun.
  destruct (paced_run c tr (init t0) s Hnc Hcalm (paced_init c t0) Hrun)
    as (_ & _ & Hsp).
  rewrite host_delay_in_range in Hsp by done.
  intros i j a b Hij Hi Hj. apply (Hsp i j a b Hij Hi Hj).
  intros [Ha Hb]. destruct Hone as [Hl | Ht].
  - assert (Hall : Forall (λ x, inv_edge x = Trailing) (invoked s)).
    { apply (edges_run c _ tr (init t0) s); [congruence | done | constructor | done]. }
    rewrite Forall_forall in Hall.
    apply list_elem_of_lookup_2 in Hj. specialize (Hall b Hj). congruence.
  - assert (Hall : Forall (λ x, inv_edge x = Leading) (invoked s)).
    { apply (edges_run c _ tr (init t0) s); [done | congruence | constructor | done]. }
    rewrite Forall_forall in Hall.
    apply list_elem_of_lookup_2 in Hi. specialize (Hall a Hi). congruence.
Qed.

(** X5.  With [leading] and [trailing] both off the wrapper never calls
    [func]. *)
Theorem no_edge_never_invokes (c : config) (t0 : Z) (tr : list event) (s : state) :
  leading c = false → trailing c = false →
  run c tr (init t0) = Some s → invoked s = [].
Proof.
  intros Hl Ht Hrun.
  assert (Hall : Forall (λ _, False) (invoked s)).
  { apply (edges_run c _ tr (init t0) s); [congruence | congruence | constructor | done]. }
  destruct (invoked s) as [|a l]; [done|]. by apply Forall_cons in Hall as [? _].
Qed.

(** X6.  Take a wait of at most 2^31-1 ms and a run in which [func]
    returns normally without calling the wrapper.  Then the timer callback
    runs only after [wait] ms without a call to the wrapper: every call made
    before it lies at least [wait] back. *)
Theorem timer_runs_after_silence (c : config) (t0 : Z) (tr : list event)
        (i : nat) (tf : Z) (s : state) (t : Z) (this : Ctx) (args : Args) :
  wait c <= max_delay →
  calm c (tr ++ [Fire i tf]) (init t0) = true →
  run c (tr ++ [Fire i tf]) (init t0) = Some s →
  Call t this args ∈ tr →
  t + wait c <= tf.
Proof.
  intros Hw Hcalm Hrun Hin. apply run_snoc in Hrun as (s0 & Hrun0 & Hstep).
  apply calm_app in Hcalm.
  assert (Hq : quiet c [] (init t0)).
  { split; [intros u Hu; inversion Hu | intros tm u Htm; inversion Htm]. }
  destruct (quiet_run c tr [] (init t0) s0 Hcalm (wfc_init c t0) Hq Hrun0)
    as [Hwf [_ Hdue]].
  destruct (fire_inv c i tf s0 s Hwf Hstep) as (tm & _ & Ht & _ & _ & Hd & _).
  assert (Ht' : t ∈ call_times tr).
  { unfold call_times. apply list_elem_of_omap. by exists (Call t this args). }
  specialize (Hdue tm t). rewrite Ht in Hdue.
  specialize (Hdue ltac:(by apply list_elem_of_singleton) Ht').
  rewrite host_delay_in_range in Hdue by done. lia.
Qed.

(** X7.  Take [leading] off, [trailing] on and a wait of at most 2^31-1
    ms.  A call from outside [func] that finds the wrapper not throttled
    does not call [func]; the timer it sets, due [wait] ms later, does,
    once, with the [this] and the arguments of that call, when the host
    runs it, and leaves no timer; when [func] returns, the wrapper is not
    throttled. *)
Theorem deferred_call_fires_at_timeout (c : config) (s : state)
        (t : Z) (this : Ctx) (args : Args) (tf : Z) :
  leading c = false → trailing c = true → 0 <= wait c <= max_delay →
  reachable c s → frames s = [] → truthy (inThrottle s) = false →
  clock s <= t → t + wait c <= tf →
  ∃ s1 i s2, step c (Call t this args) s = Some s1 ∧
             invoked s1 = invoked s ∧
             timers s1 = [Timer i (t + wait c) this args] ∧
             step c (Fire i tf) s1 = Some s2 ∧
             invoked s2 = invoked s ++ [Invocation tf this args Trailing] ∧
             timers s2 = [] ∧ frames s2 = [AfterTrailing] ∧
             ∀ tr, tf <= tr →
               ∃ s3, step c (Return tr) s2 = Some s3 ∧
                     invoked s3 = invoked s2 ∧ timers s3 = [] ∧
                     truthy (inThrottle s3) = false.
Proof.
  intros Hl Htr [Hw Hmax] Hr Hfr Hidle Hclk Htf.
  destruct (tidy_reachable c s Hr) as [_ H1].
  pose proof (host_delay_in_range (wait c) Hmax) as Hd.
  set (s1 := rearm c this args (set_inThrottle true (remember (advance t s)))).
  assert (Hstep : step c (Call t this args) s = Some s1).
  { simpl. destruct (clock s <=? t) eqn:E; [|lia].
    unfold throttled. simpl. by rewrite Hidle, Hl. }
  assert (Htm : timers s1 = [Timer (next_timer s) (t + wait c) this args]).
  { rewrite <- Hd.
    exact (rearm_timers c this args
             (set_inThrottle true (remember (advance t s))) H1). }
  destruct (fire_invokes c (next_timer s) (t + wait c) tf this args s1)
    as (s2 & Hfire & Hi2 & Ht2 & Hf2 & Hc2);
    [done | done | simpl; lia | lia | done | done |].
  exists s1, (next_timer s), s2. split; [done|]. split; [done|].
  split; [done|]. split; [done|]. split; [done|]. split; [done|].
  split; [done|]. intros tr Htr'.
  destruct (return_after_trailing c s2 tr Hf2) as (s3 & Hst3 & ? & ? & _ & ? & _);
    [lia|].
  exists s3. repeat split; try done. congruence.
Qed.



End Wrapper.


Arguments Invocation {Ctx Args}.
Arguments Timer {Ctx Args}.
Arguments AfterLeading {Ctx Args}.
Arguments AfterTrailing {Ctx Args}.
Arguments Call {Ctx Args}.
Arguments Return {Ctx Args}.
Arguments Throw {Ctx Args}.
Arguments Fire {Ctx Args}.
Arguments Cancel {Ctx Args}.
Arguments invoked {Ctx Args}.
Arguments timers {Ctx Args}.
Arguments frames {Ctx Args}.
Arguments step {Ctx Args}.
Arguments run {Ctx Args}.
Arguments calm {Ctx Args}.
Arguments throttled {Ctx Args}.
Arguments once_per_window {Ctx Args}.
Arguments spaced {Ctx Args}.
Arguments call_times {Ctx Args}.

(** *** Concrete runs *)

Definition both_edges : config := Config true true 1000.
Definition default_options : options := Options Undefined Undefined.

(** Two calls, the trailing call for the second one, and a call right
    after; [func] returns at once each time. *)
Definition burst : list (event nat string) :=
  [Call 0 0%nat "a"; Return 0; Call 1 0%nat "b"; Fire 2 1001; Return 1001;
   Call 1002 0%nat "c"; Return 1002].

Definition burst_log : list (invocation nat string) :=
  [Invocation 0 0%nat "a" Leading;
   Invocation 1001 0%nat "b" Trailing;
   Invocation 1002 0%nat "c" Leading].

Definition burst_end : state nat string :=
  {| inThrottle := Val true; lastFn := Null; lastTime := Null;
     timeoutId := Val 3%nat; clock := 1002;
     timers := [Timer 3 2002 0%nat "c"]; next_timer := 4;
     invoked := burst_log; frames := [] |}.

(** C2 fails as stated: with the default options and [wait = 1000], calls at
    0 and 1 make the timer run at 1001 and call [func]; the call at 1002
    finds the wrapper idle and calls [func] again, 1 ms later.  [func]
    returns normally each time and calls nothing. *)
Lemma throttle_two_calls_in_one_window :
  throttle 1000 default_options = inr both_edges ∧
  calm both_edges burst (init nat string 0) = true ∧
  run both_edges burst (init nat string 0) = Some burst_end ∧
  ¬ once_per_window 1000 (invoked burst_end).
Proof.
  split; [reflexivity|]. split; [vm_compute; reflexivity|].
  split; [vm_compute; reflexivity|].
  intros H.
  pose proof (H 1%nat 2%nat (Invocation 1001 0%nat "b" Trailing)
                (Invocation 1002 0%nat "c" Leading)
                ltac:(lia) eq_refl eq_refl) as H'.
  vm_compute in H'. by apply H'.
Qed.

Lemma throttle_spaces_invocations_witness : spaced 1000 (invoked burst_end).
Proof.
  apply (throttle_spaces_invocations nat string 1000 default_options both_edges
           0 burst burst_end).
  - reflexivity.
  - vm_compute. discriminate.
  - repeat constructor.
  - vm_compute. reflexivity.
  - vm_compute. reflexivity.
Defined.

Lemma leading_call_invokes_immediately_witness :
  ∃ s', step both_edges (Call 5 7%nat "x") (init nat string 0) = Some s' ∧
        invoked s' = [] ++ [Invocation 5 7%nat "x" Leading].
Proof.
  apply (leading_call_invokes_immediately nat string 1000
           (Options (Val true) Undefined) both_edges (init nat string 0)).
  - reflexivity.
  - reflexivity.
  - exists 0, []. reflexivity.
  - reflexivity.
  - vm_compute. discriminate.
Defined.


Definition after_third_call : state nat string :=
  {| inThrottle := Val true; lastFn := Val (); lastTime := Val 400;
     timeoutId := Val 3%nat; clock := 400;
     timers := [Timer 3 1400 1%nat "c"]; next_timer := 4;
     invoked := [Invocation 0 0%nat "a" Leading]; frames := [] |}.


Lemma after_third_call_reachable : reachable nat string both_edges after_third_call.
Proof.
  exists 0, [Call 0 0%nat "a"; Return 0; Call 200 0%nat "b"; Call 400 1%nat "c"].
  vm_compute. reflexivity.
Qed.






Lemma cancel_discards_pending_call_witness :
  ∃ s0, step both_edges (Cancel 500) after_third_call = Some s0 ∧
        timers s0 = [] ∧ lastFn nat string s0 = Null ∧
        invoked s0 = [Invocation 0 0%nat "a" Leading].
Proof.
  destruct (cancel_discards_pending_call nat string both_edges after_third_call 500)
    as (s0 & Hstep & Hnil & _ & Hfn & _ & Hlog & _).
  - exact after_third_call_reachable.
  - reflexivity.
  - vm_compute. discriminate.
  - exists s0. split; [exact Hstep|]. split; [exact Hnil|].
    split; [exact Hfn | exact Hlog].
Defined.

(** [func] calls [cancel] while the leading call runs it. *)
Definition cancelled_inside : state nat string :=
  {| inThrottle := Val true; lastFn := Null; lastTime := Null;
     timeoutId := Val 1%nat; clock := 0;
     timers := [Timer 1 1000 0%nat "a"]; next_timer := 2;
     invoked := [Invocation 0 0%nat "a" Leading]; frames := [] |}.

Definition held_back : state nat string :=
  {| inThrottle := Val true; lastFn := Val (); lastTime := Val 5;
     timeoutId := Val 2%nat; clock := 5;
     timers := [Timer 2 1005 0%nat "b"]; next_timer := 3;
     invoked := [Invocation 0 0%nat "a" Leading]; frames := [] |}.

(** C7 fails as stated: with both edges on, [func] calls [cancel()] while
    the leading call at 0 runs it.  The wrapper goes on after [func] has
    returned: it sets [inThrottle] and its timer.  The call at 5, made after
    the cancel, starts no period of its own: it finds the wrapper throttled
    and does not call [func]. *)
Lemma cancel_inside_func_starts_no_period :
  leading both_edges = true ∧
  run both_edges [Call 0 0%nat "a"; Cancel 0; Return 0] (init nat string 0)
    = Some cancelled_inside ∧
  step both_edges (Call 5 0%nat "b") cancelled_inside = Some held_back ∧
  invoked held_back = invoked cancelled_inside.
Proof.
  split; [reflexivity|]. split; [vm_compute; reflexivity|].
  split; [vm_compute; reflexivity | reflexivity].
Qed.

(** *** Concrete runs for the further properties *)

Definition leading_only : config := Config true false 1000.
Definition trailing_only : config := Config false true 1000.
Definition no_edge : config := Config false false 1000.

Definition leading_only_run : list (event nat string) :=
  [Call 0 0%nat "a"; Return 0; Call 200 0%nat "b"; Fire 2 1200;
   Call 1300 0%nat "c"; Return 1300].

Definition leading_only_end : state nat string :=
  {| inThrottle := Val true; lastFn := Val (); lastTime := Null;
     timeoutId := Val 3%nat; clock := 1300;
     timers := [Timer 3 2300 0%nat "c"]; next_timer := 4;
     invoked := [Invocation 0 0%nat "a" Leading;
                 Invocation 1300 0%nat "c" Leading];
     frames := [] |}.

Definition no_edge_end : state nat string :=
  {| inThrottle := Val false; lastFn := Val (); lastTime := Null;
     timeoutId := Val 1%nat; clock := 1000; timers := []; next_timer := 2;
     invoked := []; frames := [] |}.

Definition in_trailing_call : state nat string :=
  {| inThrottle := Val true; lastFn := Val (); lastTime := Val 1;
     timeoutId := Val 2%nat; clock := 1001; timers := []; next_timer := 3;
     invoked := [Invocation 0 0%nat "a" Leading;
                 Invocation 1001 0%nat "b" Trailing];
     frames := [AfterTrailing] |}.

Lemma one_timer_while_throttled_witness :
  (timers burst_end = [] ∧ truthy (inThrottle nat string burst_end) = false) ∨
  (∃ tm, timers burst_end = [tm] ∧
         timeoutId nat string burst_end = Val (timer_id nat string tm) ∧
         truthy (inThrottle nat string burst_end) = true).
Proof.
  destruct (one_timer_while_throttled nat string both_edges 0 burst burst_end)
    as [_ H].
  - vm_compute. reflexivity.
  - apply H; vm_compute; reflexivity.
Defined.

Lemma invocations_at_most_calls_witness :
  (length (invoked burst_end) <= length (call_times burst))%nat.
Proof.
  apply (invocations_at_most_calls nat string both_edges 0 burst burst_end).
  vm_compute. reflexivity.
Defined.

Lemma invocations_come_from_calls_witness :
  ∃ t, Call t 0%nat "b" ∈ burst.
Proof.
  apply (invocations_come_from_calls nat string both_edges 0 burst burst_end
           (Invocation 1001 0%nat "b" Trailing)).
  - vm_compute. reflexivity.
  - simpl. unfold burst_log. apply elem_of_cons. right. apply elem_of_cons. by left.
Defined.

Lemma single_edge_once_per_window_witness :
  once_per_window 1000 (invoked leading_only_end).
Proof.
  apply (single_edge_once_per_window nat string leading_only 0 leading_only_run
           leading_only_end).
  - right. reflexivity.
  - vm_compute. discriminate.
  - repeat constructor.
  - vm_compute. reflexivity.
  - vm_compute. reflexivity.
Defined.

Lemma no_edge_never_invokes_witness : invoked no_edge_end = [].
Proof.
  apply (no_edge_never_invokes nat string no_edge 0
           [Call 0 0%nat "a"; Fire 1 1000] no_edge_end).
  - reflexivity.
  - reflexivity.
  - vm_compute. reflexivity.
Defined.

Lemma timer_runs_after_silence_witness : 1 + 1000 <= 1001.
Proof.
  apply (timer_runs_after_silence nat string both_edges 0
           [Call 0 0%nat "a"; Return 0; Call 1 0%nat "b"] 2 1001
           in_trailing_call 1 0%nat "b").
  - vm_compute. discriminate.
  - vm_compute. reflexivity.
  - vm_compute. reflexivity.
  - apply elem_of_cons. right. apply elem_of_cons. right.
    apply elem_of_cons. by left.
Defined.

Lemma deferred_call_fires_at_timeout_witness :
  ∃ s1 i s2, step trailing_only (Call 0 0%nat "a") (init nat string 0) = Some s1 ∧
             invoked s1 = [] ∧
             timers s1 = [Timer i (0 + 1000) 0%nat "a"] ∧
             step trailing_only (Fire i 1000) s1 = Some s2 ∧
             invoked s2 = [] ++ [Invocation 1000 0%nat "a" Trailing] ∧
             timers s2 = [] ∧ frames s2 = [AfterTrailing] ∧
             ∀ tr, 1000 <= tr →
               ∃ s3, step trailing_only (Return tr) s2 = Some s3 ∧
                     invoked s3 = invoked s2 ∧ timers s3 = [] ∧
                     truthy (inThrottle nat string s3) = false.
Proof.
  apply (deferred_call_fires_at_timeout nat string trailing_only
           (init nat string 0) 0 0%nat "a" 1000).
  - reflexivity.
  - reflexivity.
  - split; vm_compute; discriminate.
  - exists 0, []. reflexivity.
  - reflexivity.
  - reflexivity.
  - vm_compute. discriminate.
  - vm_compute. discriminate.
Defined.



End Throttle.


(** * The asynchronous task queue *)

Module AsyncQueue.

(** A task is a function the queue calls with no arguments.  The call either
    throws before it returns, or returns a value that [Promise.resolve] turns
    into a promise, which the host settles later.  [task_id] names the
    function object. *)
Inductive behaviour : Set :=
| ThrowsSync (e : string)
| ReturnsPromise.

Record task : Set := Task {
  task_id : nat;
  task_body : behaviour
}.

(** What the function held in [throttledQueue.onError] does when it is
    called: it returns, or it throws [e].  A call it makes to the queue is
    an event of its own. *)
Inductive reaction : Set :=
| HandlerReturns
| HandlerThrows (e : string).

(** How the promise of a started task settles; with a rejection comes what
    the function in [onError], if there is one, does when called with the
    error. *)
Inductive settlement : Set :=
| Fulfilled
| Rejected (e : string) (h : reaction).

(** What the queue tells the outside: calls of [throttledQueue.onError], and
    lines written with [console.error] and [console.log]. *)
Inductive output : Set :=
| OnErrorCalled (e : string)
| ConsoleError (e : string)
| LogPaused
| LogResumed
| LogCleared (clearedCount : nat).

(** The closure variables of [createAsyncQueue] ([concurrency], [taskQueue],
    [runningTasks], [isPaused], [idlePromise], [resolveIdle]), the property
    [onError] of the returned object (whether it holds a function; what the
    function does comes with the rejection it is called for), and the host: promises are numbered in the order they are
    created, [resolved] lists those that are resolved, [in_flight] the
    started tasks whose promise chain has not run its [finally] callback,
    [started] the tasks in the order they were called, [outputs] what was
    reported.  [resolveIdle] is the number of the promise its current value
    resolves. *)
Record state : Set := State {
  concurrency : Z;
  taskQueue : list task;
  runningTasks : Z;
  isPaused : bool;
  idlePromise : nat;
  resolveIdle : nat;
  onError : bool;
  next_promise : nat;
  resolved : list nat;
  in_flight : list nat;
  started : list nat;
  outputs : list output
}.

Definition set_taskQueue (q : list task) (s : state) : state :=
  State (concurrency s) q (runningTasks s) (isPaused s) (idlePromise s)
        (resolveIdle s) (onError s) (next_promise s) (resolved s)
        (in_flight s) (started s) (outputs s).

Definition set_runningTasks (n : Z) (s : state) : state :=
  State (concurrency s) (taskQueue s) n (isPaused s) (idlePromise s)
        (resolveIdle s) (onError s) (next_promise s) (resolved s)
        (in_flight s) (started s) (outputs s).

Definition set_isPaused (b : bool) (s : state) : state :=
  State (concurrency s) (taskQueue s) (runningTasks s) b (idlePromise s)
        (resolveIdle s) (onError s) (next_promise s) (resolved s)
        (in_flight s) (started s) (outputs s).

Definition set_onError (b : bool) (s : state) : state :=
  State (concurrency s) (taskQueue s) (runningTasks s) (isPaused s)
        (idlePromise s) (resolveIdle s) b (next_promise s) (resolved s)
        (in_flight s) (started s) (outputs s).

Definition set_in_flight (l : list nat) (s : state) : state :=
  State (concurrency s) (taskQueue s) (runningTasks s) (isPaused s)
        (idlePromise s) (resolveIdle s) (onError s) (next_promise s)
        (resolved s) l (started s) (outputs s).

Definition set_started (l : list nat) (s : state) : state :=
  State (concurrency s) (taskQueue s) (runningTasks s) (isPaused s)
        (idlePromise s) (resolveIdle s) (onError s) (next_promise s)
        (resolved s) (in_flight s) l (outputs s).

Definition emit (o : output) (s : state) : state :=
  State (concurrency s) (taskQueue s) (runningTasks s) (isPaused s)
        (idlePromise s) (resolveIdle s) (onError s) (next_promise s)
        (resolved s) (in_flight s) (started s) (outputs s ++ [o]).

(** [idlePromise = new Promise((resolve) => { resolveIdle = resolve; });] *)
Definition reset_idle (s : state) : state :=
  State (concurrency s) (taskQueue s) (runningTasks s) (isPaused s)
        (next_promise s) (next_promise s) (onError s) (S (next_promise s))
        (resolved s) (in_flight s) (started s) (outputs s).

(** [resolveIdle();] resolving a resolved promise again changes nothing. *)
Definition call_resolveIdle (s : state) : state :=
  State (concurrency s) (taskQueue s) (runningTasks s) (isPaused s)
        (idlePromise s) (resolveIdle s) (onError s) (next_promise s)
        (if decide (resolveIdle s ∈ resolved s) then resolved s
         else resolved s ++ [resolveIdle s])
        (in_flight s) (started s) (outputs s).

(** [Promise.resolve()]: a new promise, resolved from the start. *)
Definition promise_resolve (s : state) : nat * state :=
  (next_promise s,
   State (concurrency s) (taskQueue s) (runningTasks s) (isPaused s)
         (idlePromise s) (resolveIdle s) (onError s) (S (next_promise s))
         (resolved s ++ [next_promise s])
         (in_flight s) (started s) (outputs s)).

Definition error_message : string := "Concurrency must be a positive integer.".

(** [createAsyncQueue({ concurrency })].  [concurrency] is an integer by
    typing; of the three checks the one on its sign remains.  [idlePromise]
    is first [Promise.resolve()] (promise 0) and then replaced by a promise
    of its own (promise 1), which [resolveIdle] resolves. *)
Definition createAsyncQueue (concurrency : Z) : string + state :=
  if concurrency <=? 0 then inl error_message
  else inr {| concurrency := concurrency; taskQueue := []; runningTasks := 0;
              isPaused := false; idlePromise := 1; resolveIdle := 1;
              onError := false; next_promise := 2; resolved := [0%nat];
              in_flight := []; started := []; outputs := [] |}.

(** [const task = taskQueue.shift(); runningTasks++;] and the call [task()],
    for a queue whose first element is [t] and whose other elements are
    [rest]. *)
Definition take_task (t : task) (rest : list task) (s : state) : state :=
  set_started (started s ++ [task_id t])
    (set_runningTasks (runningTasks s + 1) (set_taskQueue rest s)).

(** [Promise.resolve(task()).then(...).catch(...).finally(...)]: the chain
    waits for the task's promise. *)
Definition await_task (t : task) (s : state) : state :=
  set_in_flight (in_flight s ++ [task_id t]) s.

(** [runNext], by recursion on the contents [q] of [taskQueue]: each
    recursive call happens after one [shift()].  When [task()] throws, the
    exception leaves [runNext] before the promise chain is built. *)
Fixpoint runNext_from (q : list task) (s : state) : outcome string state :=
  if isPaused s || (concurrency s <=? runningTasks s) || (length q =? 0)%nat
  then Returned s
  else
    match q with
    | [] => Returned s
    | t :: rest =>
        let s1 := take_task t rest s in
        match task_body t with
        | ThrowsSync e => Threw e s1
        | ReturnsPromise => runNext_from rest (await_task t s1)
        end
    end.

Definition runNext (s : state) : outcome string state :=
  runNext_from (taskQueue s) s.

(** [add(taskFn)]; [taskFn] is a function by typing.  When [runNext] throws,
    the assignment to [idlePromise] after it is not reached. *)
Definition add (t : task) (s : state) : outcome string state :=
  match runNext (set_taskQueue (taskQueue s ++ [t]) s) with
  | Returned s1 => Returned (reset_idle s1)
  | Threw e s1 => Threw e s1
  end.

(** [onIdle()]: the promise it returns, and the state after the call. *)
Definition onIdle (s : state) : nat * state :=
  if (runningTasks s =? 0) && (length (taskQueue s) =? 0)%nat
  then promise_resolve s
  else (idlePromise s, s).

Definition pause (s : state) : state :=
  emit LogPaused (set_isPaused true s).

Definition resume (s : state) : outcome string state :=
  if isPaused s
  then runNext (emit LogResumed (set_isPaused false s))
  else Returned s.

Definition clear (s : state) : state :=
  let clearedCount := length (taskQueue s) in
  emit (LogCleared clearedCount) (set_taskQueue [] s).

Definition getRunningTasksCount (s : state) : Z := runningTasks s.

Definition getPendingTasksCount (s : state) : nat := length (taskQueue s).

(** The [.catch] callback of the chain.  [console.error] returns; the
    function in [onError] returns or throws, and what it throws leaves the
    callback. *)
Definition on_rejected (e : string) (h : reaction) (s : state) : outcome string state :=
  if onError s then
    match h with
    | HandlerReturns => Returned (emit (OnErrorCalled e) s)
    | HandlerThrows e' => Threw e' (emit (OnErrorCalled e) s)
    end
  else Returned (emit (ConsoleError e) s).

(** The [.finally] callback of the chain. *)
Definition on_finally (s : state) : outcome string state :=
  let s1 := set_runningTasks (runningTasks s - 1) s in
  let s2 :=
    if (runningTasks s1 =? 0) && (length (taskQueue s1) =? 0)%nat
    then call_resolveIdle s1 else s1 in
  runNext s2.

(** Removes the first occurrence of [id]. *)
Fixpoint remove_one (id : nat) (l : list nat) : list nat :=
  match l with
  | [] => []
  | x :: l' => if decide (x = id) then l' else x :: remove_one id l'
  end.

(** The [.then] and [.catch] callbacks of the chain: the first does
    nothing, the second reports.  [Threw]: the promise of [.catch] is
    rejected. *)
Definition on_settled (o : settlement) (s : state) : outcome string state :=
  match o with
  | Fulfilled => Returned s
  | Rejected e h => on_rejected e h s
  end.

(** The promise of [.finally]: its callback has run whether the chain was
    fulfilled or rejected ([before]), and it is rejected with what the
    callback threw, or else with the rejection the chain came with. *)
Definition finally_settles (before after : outcome string state) : outcome string state :=
  match after, before with
  | Threw e s, _ => Threw e s
  | Returned s, Threw e _ => Threw e s
  | Returned s, Returned _ => Returned s
  end.

(** The promise of the started task [id] settles and the callbacks of its
    chain run, [.finally] last.  [None] when no such task is in flight;
    [Threw]: the chain ends rejected, and nothing handles the rejection. *)
Definition settle (id : nat) (o : settlement) (s : state) : option (outcome string state) :=
  if decide (id ∈ in_flight s) then
    let caught := on_settled o (set_in_flight (remove_one id (in_flight s)) s) in
    Some (finally_settles caught (on_finally (state_of caught)))
  else None.

(** *** Runs of the queue *)

Inductive event : Set :=
| Add (t : task)
| OnIdle
| Pause
| Resume
| Clear
| SetOnError (is_function : bool)
| Settle (id : nat) (o : settlement).

(** One event.  An exception thrown by [add] or [resume] reaches their
    caller, one thrown in a [catch] or [finally] callback rejects the chain;
    either way the queue keeps the state it had when the exception was
    thrown. *)
Definition exec (e : event) (s : state) : option state :=
  match e with
  | Add t => Some (state_of (add t s))
  | OnIdle => Some (snd (onIdle s))
  | Pause => Some (pause s)
  | Resume => Some (state_of (resume s))
  | Clear => Some (clear s)
  | SetOnError b => Some (set_onError b s)
  | Settle id o => state_of <$> settle id o s
  end.

Fixpoint run (tr : list event) (s : state) : option state :=
  match tr with
  | [] => Some s
  | e :: tr' =>
      match exec e s with
      | Some s' => run tr' s'
      | None => None
      end
  end.

Definition pending_ids (s : state) : list nat := task_id <$> taskQueue s.

(** The tasks passed to [add] in a run, in order. *)
Definition submitted (tr : list event) : list nat :=
  omap (λ e, match e with Add t => Some (task_id t) | _ => None end) tr.

Definition is_add (e : event) : bool :=
  match e with Add _ => true | _ => false end.

Definition is_resume (e : event) : bool :=
  match e with Resume => true | _ => false end.


Definition returns_promise (t : task) : bool :=
  match task_body t with ReturnsPromise => true | ThrowsSync _ => false end.

(** *** What [runNext] does *)

(** The guard at the top of [runNext]. *)
Definition blocked (q : list task) (s : state) : bool :=
  isPaused s || (concurrency s <=? runningTasks s) || (length q =? 0)%nat.

Lemma runNext_from_blocked (q : list task) (s : state) :
  blocked q s = true → runNext_from q s = Returned s.
Proof.
  unfold blocked. intros H. destruct q; simpl in *.
  - by destruct (isPaused s || (concurrency s <=? runningTasks s) || true).
  - by rewrite H.
Qed.

Lemma runNext_from_cons (t : task) (rest : list task) (s : state) :
  blocked (t :: rest) s = false →
  runNext_from (t :: rest) s =
    match task_body t with
    | ThrowsSync e => Threw e (take_task t rest s)
    | ReturnsPromise => runNext_from rest (await_task t (take_task t rest s))
    end.
Proof. unfold blocked. intros H. simpl. simpl in H. by rewrite H. Qed.

(** Induction along the calls of [runNext]. *)
Lemma runNext_from_ind (P : list task → state → outcome string state → Prop) :
  (∀ q s, blocked q s = true → P q s (Returned s)) →
  (∀ t rest s e, blocked (t :: rest) s = false → task_body t = ThrowsSync e →
                 P (t :: rest) s (Threw e (take_task t rest s))) →
  (∀ t rest s r, blocked (t :: rest) s = false → task_body t = ReturnsPromise →
                 r = runNext_from rest (await_task t (take_task t rest s)) →
                 P rest (await_task t (take_task t rest s)) r →
                 P (t :: rest) s r) →
  ∀ q s, P q s (runNext_from q s).
Proof.
  intros Hb Ht Hr q. induction q as [|t rest IH]; intros s.
  - assert (E : blocked [] s = true) by (unfold blocked; simpl; by rewrite orb_true_r).
    rewrite runNext_from_blocked by done. by apply Hb.
  - destruct (blocked (t :: rest) s) eqn:E.
    + rewrite runNext_from_blocked by done. by apply Hb.
    + rewrite runNext_from_cons by done.
      destruct (task_body t) as [e|] eqn:Eb.
      * by apply Ht.
      * apply Hr; [done | done | done | apply IH].
Qed.

(** The variables [runNext] does not touch. *)
Definition same_settings (s s' : state) : Prop :=
  concurrency s' = concurrency s ∧ isPaused s' = isPaused s ∧
  idlePromise s' = idlePromise s ∧ resolveIdle s' = resolveIdle s ∧
  onError s' = onError s ∧ next_promise s' = next_promise s ∧
  resolved s' = resolved s ∧ outputs s' = outputs s.

(** [runNext] takes some number [k] of tasks from the front of the queue, in
    order, and calls each; all of them but one that throws are then in
    flight. *)
Definition takes (k : nat) (q : list task) (s : state) (r : outcome string state) : Prop :=
  let s' := state_of r in
  same_settings s s' ∧
  (k <= length q)%nat ∧
  started s' = started s ++ (task_id <$> take k q) ∧
  taskQueue s' = drop k q ∧
  runningTasks s' = runningTasks s + Z.of_nat k ∧
  in_flight s' = in_flight s ++ (task_id <$> take (if has_thrown r then pred k else k) q) ∧
  (has_thrown r = true → k ≠ 0%nat) ∧
  (k ≠ 0%nat → isPaused s = false ∧ runningTasks s' <= concurrency s).

Lemma runNext_from_takes (q : list task) (s : state) :
  taskQueue s = q → ∃ k, takes k q s (runNext_from q s).
Proof.
  apply (runNext_from_ind
           (λ q s r, taskQueue s = q → ∃ k, takes k q s r)).
  - clear. intros q s _ Hq. exists 0%nat. unfold takes, same_settings. simpl.
    rewrite !app_nil_r, Z.add_0_r, drop_0. repeat split; try done. lia.
  - clear. intros t rest s e Hb Ht _. exists 1%nat.
    unfold takes, same_settings. simpl. rewrite drop_0, app_nil_r.
    repeat split; try done; try lia.
    + unfold blocked in Hb. by destruct (isPaused s).
    + unfold blocked in Hb. destruct (isPaused s); [done|]. simpl in Hb.
      destruct (concurrency s <=? runningTasks s) eqn:E; [done|]. lia.
  - clear. intros t rest s r Hb Ht _ IH _.
    destruct IH as (k & Hset & Hk & Hst & Hq & Hrun & Hfl & Hthr & Hpos);
      [reflexivity|].
    assert (Hlt : isPaused s = false ∧ runningTasks s + 1 <= concurrency s).
    { unfold blocked in Hb. destruct (isPaused s); [done|]. simpl in Hb.
      destruct (concurrency s <=? runningTasks s) eqn:E; [done|]. lia. }
    exists (S k). unfold takes. simpl in *.
    split; [exact Hset|]. split; [lia|].
    split; [by rewrite Hst, <- app_assoc|].
    split; [done|]. split; [lia|]. split; [|split; [done|]].
    + rewrite Hfl, <- app_assoc. simpl. f_equal.
      destruct (has_thrown r); [|done].
      destruct k as [|k]; [by destruct Hthr | done].
    + intros _. split; [tauto|].
      destruct (decide (k = 0%nat)) as [-> | Hne]; [lia|].
      by destruct (Hpos Hne).
Qed.

Lemma runNext_takes (s : state) : ∃ k, takes k (taskQueue s) s (runNext s).
Proof. by apply runNext_from_takes. Qed.

(** A paused queue starts nothing. *)
Lemma runNext_paused (s : state) : isPaused s = true → runNext s = Returned s.
Proof.
  intros H. apply runNext_from_blocked. unfold blocked. by rewrite H.
Qed.



Lemma runNext_from_fills (q : list task) (s : state) :
  taskQueue s = q → isPaused s = false →
  Forall (λ t, returns_promise t = true) q →
  let k := Nat.min (length q) (Z.to_nat (concurrency s - runningTasks s)) in
  has_thrown (runNext_from q s) = false ∧ takes k q s (runNext_from q s).
Proof.
  apply (runNext_from_ind
           (λ q s r, taskQueue s = q → isPaused s = false →
                     Forall (λ t, returns_promise t = true) q →
                     let k := Nat.min (length q)
                                (Z.to_nat (concurrency s - runningTasks s)) in
                     has_thrown r = false ∧ takes k q s r)).
  - clear. intros q s Hb Hq Hp _ k. split; [done|].
    assert (k = 0%nat) as ->.
    { subst k. unfold blocked in Hb. rewrite Hp in Hb. simpl in Hb.
      destruct (concurrency s <=? runningTasks s) eqn:E; [lia|]. simpl in Hb.
      destruct q; [done | discriminate]. }
    unfold takes, same_settings. simpl.
    rewrite !app_nil_r, Z.add_0_r, drop_0. repeat split; try done. lia.
  - clear. intros t rest s e _ Ht _ _ Hall.
    apply Forall_cons in Hall as [Hall _]. unfold returns_promise in Hall.
    by rewrite Ht in Hall.
  - clear. intros t rest s r Hb Ht _ IH _ Hp Hall k.
    apply Forall_cons in Hall as [_ Hall].
    destruct IH as (Hnt & Hset & Hk & Hst & Hq & Hrun & Hfl & Hthr & Hpos);
      [done..|].
    assert (Hlt : runningTasks s + 1 <= concurrency s).
    { unfold blocked in Hb. rewrite Hp in Hb. simpl in Hb.
      destruct (concurrency s <=? runningTasks s) eqn:E; [done|]. lia. }
    assert (Hkk : k = S (Nat.min (length rest)
                           (Z.to_nat (concurrency s - (runningTasks s + 1)))))
      by (subst k; cbn [length]; lia).
    clearbody k. subst k. simpl in *.
    set (k' := Nat.min (length rest)
                 (Z.to_nat (concurrency s - (runningTasks s + 1)))) in *.
    split; [done|]. unfold takes. rewrite Hnt in *. simpl.
    split; [exact Hset|]. split; [lia|].
    split; [by rewrite Hst, <- app_assoc|].
    split; [done|]. split; [lia|].
    split; [by rewrite Hfl, <- app_assoc|]. split; [done|].
    intros _. split; [done|].
    destruct (decide (k' = 0%nat)) as [E | Hne]; [rewrite E in Hrun; lia|].
    by destruct (Hpos Hne).
Qed.

(** *** The concurrency bound *)

(** The tasks in flight are counted by [runningTasks], which stays within
    [concurrency]. *)
Definition bounded (s : state) : Prop :=
  Z.of_nat (length (in_flight s)) <= runningTasks s ∧
  runningTasks s <= concurrency s.

Lemma runNext_bounded (s : state) :
  bounded s →
  bounded (state_of (runNext s)) ∧
  concurrency (state_of (runNext s)) = concurrency s.
Proof.
  intros [Hfl Hrun].
  destruct (runNext_takes s)
    as (k & (Hc & _) & Hk & _ & _ & Hr & Hf & _ & Hpos).
  split; [|done]. unfold bounded. rewrite Hc, Hr, Hf.
  rewrite length_app, length_fmap, length_take. split.
  - destruct (has_thrown (runNext s)); lia.
  - destruct (decide (k = 0%nat)) as [-> | Hne]; [lia|].
    destruct (Hpos Hne) as [_ H]. lia.
Qed.

Lemma length_remove_one (id : nat) (l : list nat) :
  id ∈ l → S (length (remove_one id l)) = length l.
Proof.
  induction l as [|x l IH]; intros Hin; [inversion Hin|].
  simpl. case_decide as Hx; [done|]. simpl. f_equal. apply IH.
  apply elem_of_cons in Hin as [-> | Hin]; done.
Qed.

Lemma state_of_finally_settles (before after : outcome string state) :
  state_of (finally_settles before after) = state_of after.
Proof. by destruct after, before. Qed.

(** What the state is after the chain of [id] has run. *)
Lemma exec_settle (id : nat) (o : settlement) (s s' : state) :
  exec (Settle id o) s = Some s' →
  id ∈ in_flight s ∧
  s' = state_of (on_finally
                   (state_of (on_settled o
                                (set_in_flight (remove_one id (in_flight s)) s)))).
Proof.
  simpl. unfold settle. case_decide as Hin; [|discriminate].
  intros Hex. split; [done|]. simpl in Hex. injection Hex as <-.
  apply state_of_finally_settles.
Qed.

Lemma on_settled_frame (o : settlement) (s : state) :
  let s' := state_of (on_settled o s) in
  concurrency s' = concurrency s ∧ taskQueue s' = taskQueue s ∧
  runningTasks s' = runningTasks s ∧ isPaused s' = isPaused s ∧
  idlePromise s' = idlePromise s ∧ resolveIdle s' = resolveIdle s ∧
  onError s' = onError s ∧ next_promise s' = next_promise s ∧
  resolved s' = resolved s ∧ in_flight s' = in_flight s ∧
  started s' = started s.
Proof.
  destruct o as [|e h]; simpl; [done|]. unfold on_rejected.
  destruct (onError s) eqn:E; [destruct h|]; simpl; by rewrite E.
Qed.

Lemma on_finally_bounded (s : state) :
  Z.of_nat (length (in_flight s)) + 1 <= runningTasks s →
  runningTasks s <= concurrency s →
  bounded (state_of (on_finally s)) ∧
  concurrency (state_of (on_finally s)) = concurrency s.
Proof.
  intros Hfl Hrun. unfold on_finally. simpl.
  destruct ((runningTasks s - 1 =? 0) && (length (taskQueue s) =? 0)%nat).
  - apply (runNext_bounded (call_resolveIdle (set_runningTasks (runningTasks s - 1) s))).
    unfold bounded. simpl. lia.
  - apply (runNext_bounded (set_runningTasks (runningTasks s - 1) s)).
    unfold bounded. simpl. lia.
Qed.

Lemma exec_bounded (e : event) (s s' : state) :
  bounded s → exec e s = Some s' →
  bounded s' ∧ concurrency s' = concurrency s.
Proof.
  intros Hb Hex. destruct e as [t | | | | | b | id o]; simpl in Hex.
  - injection Hex as <-. unfold add.
    set (s1 := set_taskQueue (taskQueue s ++ [t]) s).
    destruct (runNext_bounded s1) as [Hb1 Hc1]; [exact Hb|].
    destruct (runNext s1); simpl in *; done.
  - injection Hex as <-. unfold onIdle.
    destruct ((runningTasks s =? 0) && (length (taskQueue s) =? 0)%nat); done.
  - injection Hex as <-. done.
  - injection Hex as <-. unfold resume. destruct (isPaused s); [|done].
    by apply (runNext_bounded (emit LogResumed (set_isPaused false s))).
  - injection Hex as <-. done.
  - injection Hex as <-. done.
  - apply exec_settle in Hex as [Hin ->].
    apply length_remove_one in Hin. destruct Hb as [Hfl Hrun].
    set (s1 := state_of (on_settled o (set_in_flight (remove_one id (in_flight s)) s))).
    destruct (on_settled_frame o (set_in_flight (remove_one id (in_flight s)) s))
      as (Hc & _ & Hr & _ & _ & _ & _ & _ & _ & Hf & _).
    fold s1 in Hc, Hr, Hf. simpl in Hc, Hr, Hf.
    destruct (on_finally_bounded s1) as [Hb' Hc'];
      [rewrite Hr, Hf; lia | rewrite Hr, Hc; lia |].
    split; [done | congruence].
Qed.

Lemma run_bounded (tr : list event) (s s' : state) :
  bounded s → run tr s = Some s' →
  bounded s' ∧ concurrency s' = concurrency s.
Proof.
  revert s. induction tr as [|e tr IH]; intros s Hb Hrun; simpl in Hrun.
  - by injection Hrun as <-.
  - destruct (exec e s) as [s1|] eqn:He; [|discriminate].
    destruct (exec_bounded e s s1 Hb He) as [Hb1 Hc1].
    destruct (IH s1 Hb1 Hrun) as [Hb' Hc']. split; [done | congruence].
Qed.

Lemma createAsyncQueue_inr (c : Z) (s0 : state) :
  createAsyncQueue c = inr s0 →
  0 < c ∧ concurrency s0 = c ∧ runningTasks s0 = 0 ∧ taskQueue s0 = [] ∧
  isPaused s0 = false ∧ in_flight s0 = [] ∧ started s0 = [].
Proof.
  unfold createAsyncQueue. destruct (c <=? 0) eqn:E; [discriminate|].
  intros [= <-]. simpl. repeat split. lia.
Qed.

(** *** The order of starts *)

(** What an event does to the queue and to the list of started tasks: the
    queue is extended by [add] or emptied by [clear], and then some number of
    tasks at its front are started, in order. *)
Definition queue_before_starts (e : event) (s : state) : list task :=
  match e with
  | Add t => taskQueue s ++ [t]
  | Clear => []
  | _ => taskQueue s
  end.

Definition moves_front (q : list task) (s s' : state) : Prop :=
  ∃ k, started s' = started s ++ (task_id <$> take k q) ∧ taskQueue s' = drop k q.

Lemma moves_front_none (s s' : state) :
  started s' = started s → taskQueue s' = taskQueue s →
  moves_front (taskQueue s) s s'.
Proof. intros H1 H2. exists 0%nat. simpl. by rewrite app_nil_r, drop_0. Qed.

Lemma runNext_moves_front (s : state) :
  moves_front (taskQueue s) s (state_of (runNext s)).
Proof.
  destruct (runNext_takes s) as (k & _ & _ & Hst & Hq & _). by exists k.
Qed.

Lemma on_finally_moves_front (s : state) :
  moves_front (taskQueue s) s (state_of (on_finally s)).
Proof.
  unfold on_finally. simpl.
  destruct ((runningTasks s - 1 =? 0) && (length (taskQueue s) =? 0)%nat).
  - apply (runNext_moves_front
             (call_resolveIdle (set_runningTasks (runningTasks s - 1) s))).
  - apply (runNext_moves_front (set_runningTasks (runningTasks s - 1) s)).
Qed.

Lemma exec_moves_front (e : event) (s s' : state) :
  exec e s = Some s' → moves_front (queue_before_starts e s) s s'.
Proof.
  intros Hex. destruct e as [t | | | | | b | id o]; simpl in Hex.
  - injection Hex as <-. unfold add.
    set (s1 := set_taskQueue (taskQueue s ++ [t]) s).
    pose proof (runNext_moves_front s1) as Hm.
    destruct (runNext s1); exact Hm.
  - injection Hex as <-. apply moves_front_none; unfold onIdle;
      destruct ((runningTasks s =? 0) && (length (taskQueue s) =? 0)%nat); done.
  - injection Hex as <-. by apply moves_front_none.
  - injection Hex as <-. unfold resume. destruct (isPaused s).
    + apply (runNext_moves_front (emit LogResumed (set_isPaused false s))).
    + by apply moves_front_none.
  - injection Hex as <-. exists 0%nat. simpl. by rewrite app_nil_r.
  - injection Hex as <-. by apply moves_front_none.
  - apply exec_settle in Hex as [Hin ->].
    set (s1 := state_of (on_settled o (set_in_flight (remove_one id (in_flight s)) s))).
    destruct (on_settled_frame o (set_in_flight (remove_one id (in_flight s)) s))
      as (_ & Hq & _ & _ & _ & _ & _ & _ & _ & _ & Hs).
    fold s1 in Hq, Hs. simpl in Hq, Hs.
    destruct (on_finally_moves_front s1) as (k & Hs' & Hq').
    exists k. simpl. by rewrite <- Hq, <- Hs.
Qed.



Lemma submitted_cons (e : event) (tr : list event) :
  submitted (e :: tr) = submitted [e] ++ submitted tr.
Proof. unfold submitted. simpl. by destruct e. Qed.




(** *** A paused queue *)

(** The tasks whose promise settles in a run. *)
Definition settled (tr : list event) : list nat :=
  omap (λ e, match e with Settle id _ => Some id | _ => None end) tr.

Definition remove_all (ids l : list nat) : list nat :=
  foldl (λ acc id, remove_one id acc) l ids.

Lemma on_finally_paused (s : state) :
  isPaused s = true →
  ∃ s', on_finally s = Returned s' ∧
        isPaused s' = true ∧ concurrency s' = concurrency s ∧
        taskQueue s' = taskQueue s ∧ runningTasks s' = runningTasks s - 1 ∧
        in_flight s' = in_flight s ∧ started s' = started s.
Proof.
  intros Hp. unfold on_finally. simpl.
  destruct ((runningTasks s - 1 =? 0) && (length (taskQueue s) =? 0)%nat);
    (rewrite runNext_paused; [eexists; split; [reflexivity|]; done | done]).
Qed.

(** While the queue is paused, an event other than [resume] starts nothing,
    and no task leaves the set of running tasks except by settling. *)
Lemma exec_paused (e : event) (s s' : state) :
  isPaused s = true → is_resume e = false → exec e s = Some s' →
  isPaused s' = true ∧ concurrency s' = concurrency s ∧
  started s' = started s ∧
  in_flight s' = remove_all (settled [e]) (in_flight s) ∧
  runningTasks s' = runningTasks s - Z.of_nat (length (settled [e])).
Proof.
  intros Hp Hnr Hex.
  destruct e as [t | | | | | b | id o]; simpl in Hex; try discriminate.
  - injection Hex as <-. unfold add. rewrite runNext_paused by done.
    simpl. repeat split; [done | lia].
  - injection Hex as <-. unfold onIdle.
    destruct ((runningTasks s =? 0) && (length (taskQueue s) =? 0)%nat);
      simpl; repeat split; [done | lia | done | lia].
  - injection Hex as <-. simpl. repeat split; lia.
  - injection Hex as <-. simpl. repeat split; [done | lia].
  - injection Hex as <-. simpl. repeat split; [done | lia].
  - apply exec_settle in Hex as [Hin ->].
    set (s1 := state_of (on_settled o (set_in_flight (remove_one id (in_flight s)) s))).
    destruct (on_settled_frame o (set_in_flight (remove_one id (in_flight s)) s))
      as (Hc & Hq & Hr & Hp1 & _ & _ & _ & _ & _ & Hf & Hs).
    fold s1 in Hc, Hq, Hr, Hp1, Hf, Hs. simpl in Hc, Hq, Hr, Hp1, Hf, Hs.
    destruct (on_finally_paused s1) as (s' & -> & Hp' & Hc' & _ & Hr' & Hf' & Hs');
      [congruence|].
    simpl. rewrite Hc', Hs', Hf', Hr'. repeat split; try congruence.
    rewrite Hr. lia.
Qed.

Lemma settled_cons (e : event) (tr : list event) :
  settled (e :: tr) = settled [e] ++ settled tr.
Proof. unfold settled. simpl. by destruct e. Qed.

Lemma run_paused (tr : list event) (s s' : state) :
  Forall (λ e, is_resume e = false) tr →
  isPaused s = true → run tr s = Some s' →
  isPaused s' = true ∧ concurrency s' = concurrency s ∧
  started s' = started s ∧
  in_flight s' = remove_all (settled tr) (in_flight s) ∧
  runningTasks s' = runningTasks s - Z.of_nat (length (settled tr)).
Proof.
  intros Hnr. revert s.
  induction Hnr as [|e tr He _ IH]; intros s Hp Hrun; simpl in Hrun.
  - injection Hrun as <-. simpl. repeat split; [done | lia].
  - destruct (exec e s) as [s1|] eqn:Hex; [|discriminate].
    destruct (exec_paused e s s1 Hp He Hex) as (Hp1 & Hc1 & Hs1 & Hf1 & Hr1).
    destruct (IH s1 Hp1 Hrun) as (Hp' & Hc' & Hs' & Hf' & Hr').
    rewrite settled_cons. unfold remove_all in *.
    rewrite foldl_app, length_app, <- Hf1.
    repeat split; try congruence. lia.
Qed.

(** *** A queue with every slot taken and nothing in flight *)

(** No promise is left whose [finally] callback would decrement
    [runningTasks], and [runNext] finds no free slot. *)
Definition stuck (s : state) : Prop :=
  in_flight s = [] ∧ concurrency s <= runningTasks s.

Lemma runNext_stuck (s : state) :
  concurrency s <= runningTasks s → runNext s = Returned s.
Proof.
  intros H. apply runNext_from_blocked. unfold blocked.
  destruct (concurrency s <=? runningTasks s) eqn:E; [|lia].
  by rewrite orb_true_r.
Qed.

Lemma exec_stuck (e : event) (s s' : state) :
  stuck s → exec e s = Some s' →
  stuck s' ∧ started s' = started s ∧ runningTasks s' = runningTasks s.
Proof.
  intros [Hf Hr] Hex. unfold stuck.
  destruct e as [t | | | | | b | id o]; simpl in Hex.
  - injection Hex as <-. unfold add. rewrite runNext_stuck by done. done.
  - injection Hex as <-. unfold onIdle.
    destruct ((runningTasks s =? 0) && (length (taskQueue s) =? 0)%nat); done.
  - injection Hex as <-. done.
  - injection Hex as <-. unfold resume. destruct (isPaused s); [|done].
    rewrite runNext_stuck by done. done.
  - injection Hex as <-. done.
  - injection Hex as <-. done.
  - unfold settle in Hex. rewrite Hf in Hex.
    case_decide as Hin; [inversion Hin | discriminate].
Qed.

Lemma run_stuck (tr : list event) (s s' : state) :
  stuck s → run tr s = Some s' →
  stuck s' ∧ started s' = started s ∧ runningTasks s' = runningTasks s.
Proof.
  revert s. induction tr as [|e tr IH]; intros s Hst Hrun; simpl in Hrun.
  - by injection Hrun as <-.
  - destruct (exec e s) as [s1|] eqn:Hex; [|discriminate].
    destruct (exec_stuck e s s1 Hst Hex) as (Hst1 & Hs1 & Hr1).
    destruct (IH s1 Hst1 Hrun) as (Hst' & Hs' & Hr').
    split; [done|]. split; congruence.
Qed.

(** With no task in flight, nothing but [add] and [resume] calls [runNext]:
    no task is started. *)
Lemma exec_waits (e : event) (s s' : state) :
  in_flight s = [] → is_add e = false → is_resume e = false →
  exec e s = Some s' →
  in_flight s' = [] ∧ started s' = started s ∧
  runningTasks s' = runningTasks s ∧ sublist (taskQueue s') (taskQueue s).
Proof.
  intros Hf Ha Hr Hex. destruct e as [t | | | | | b | id o]; simpl in Hex;
    try discriminate.
  - injection Hex as <-. unfold onIdle.
    destruct ((runningTasks s =? 0) && (length (taskQueue s) =? 0)%nat); done.
  - injection Hex as <-. done.
  - injection Hex as <-. simpl. repeat split; try done. apply sublist_nil_l.
  - injection Hex as <-. done.
  - unfold settle in Hex. rewrite Hf in Hex.
    case_decide as Hin; [inversion Hin | discriminate].
Qed.

Lemma run_waits (tr : list event) (s s' : state) :
  in_flight s = [] →
  Forall (λ e, is_add e = false ∧ is_resume e = false) tr →
  run tr s = Some s' →
  in_flight s' = [] ∧ started s' = started s ∧
  runningTasks s' = runningTasks s ∧ sublist (taskQueue s') (taskQueue s).
Proof.
  intros Hf Hall. revert s Hf.
  induction Hall as [|e tr [Ha Hr] _ IH]; intros s Hf Hrun; simpl in Hrun.
  - by injection Hrun as <-.
  - destruct (exec e s) as [s1|] eqn:Hex; [|discriminate].
    destruct (exec_waits e s s1 Hf Ha Hr Hex) as (Hf1 & Hs1 & Hr1 & Hq1).
    destruct (IH s1 Hf1 Hrun) as (Hf' & Hs' & Hr' & Hq').
    split; [done|]. split; [congruence|]. split; [congruence|].
    by etrans.
Qed.

(** *** Promises handed out by [onIdle] *)

(** Promise [p] exists, is not resolved, and is not the one [resolveIdle]
    resolves. *)
Definition orphaned (p : nat) (s : state) : Prop :=
  (p ∉ resolved s) ∧ resolveIdle s ≠ p ∧ (p < next_promise s)%nat.

Lemma orphaned_settings (p : nat) (s s' : state) :
  same_settings s s' → orphaned p s → orphaned p s'.
Proof.
  intros (_ & _ & _ & Hr & _ & Hn & Hres & _) (H1 & H2 & H3).
  unfold orphaned. by rewrite Hres, Hr, Hn.
Qed.

Lemma orphaned_runNext (p : nat) (s : state) :
  orphaned p s → orphaned p (state_of (runNext s)).
Proof.
  destruct (runNext_takes s) as (k & Hset & _). by apply orphaned_settings.
Qed.

Lemma orphaned_reset_idle (p : nat) (s : state) :
  orphaned p s → orphaned p (reset_idle s).
Proof.
  intros (H1 & H2 & H3). unfold orphaned. simpl. repeat split; [done | lia | lia].
Qed.

Lemma orphaned_exec (p : nat) (e : event) (s s' : state) :
  orphaned p s → exec e s = Some s' → orphaned p s'.
Proof.
  intros Ho Hex. destruct e as [t | | | | | b | id o]; simpl in Hex.
  - injection Hex as <-. unfold add.
    set (s1 := set_taskQueue (taskQueue s ++ [t]) s).
    pose proof (orphaned_runNext p s1 Ho) as H1.
    destruct (runNext s1); simpl in *; [by apply orphaned_reset_idle | done].
  - injection Hex as <-. unfold onIdle.
    destruct ((runningTasks s =? 0) && (length (taskQueue s) =? 0)%nat); [|done].
    destruct Ho as (H1 & H2 & H3). unfold orphaned. simpl.
    repeat split; [|done|lia]. rewrite elem_of_app, list_elem_of_singleton.
    intros [?|?]; [done | lia].
  - injection Hex as <-. done.
  - injection Hex as <-. unfold resume. destruct (isPaused s); [|done].
    by apply (orphaned_runNext p (emit LogResumed (set_isPaused false s))).
  - injection Hex as <-. done.
  - injection Hex as <-. done.
  - apply exec_settle in Hex as [Hin ->].
    set (s1 := state_of (on_settled o (set_in_flight (remove_one id (in_flight s)) s))).
    destruct (on_settled_frame o (set_in_flight (remove_one id (in_flight s)) s))
      as (_ & _ & _ & _ & _ & Hri & _ & Hn & Hres & _).
    fold s1 in Hri, Hn, Hres. simpl in Hri, Hn, Hres.
    assert (Ho1 : orphaned p s1) by (unfold orphaned; by rewrite Hres, Hri, Hn).
    unfold on_finally.
    destruct ((runningTasks (set_runningTasks (runningTasks s1 - 1) s1) =? 0)
              && (length (taskQueue (set_runningTasks (runningTasks s1 - 1) s1)) =? 0)%nat).
    + apply orphaned_runNext. destruct Ho1 as (H1 & H2 & H3).
      unfold orphaned. simpl. repeat split; [|done..].
      case_decide; [done|]. rewrite elem_of_app, list_elem_of_singleton.
      intros [?|?]; [done | congruence].
    + by apply orphaned_runNext.
Qed.

Lemma orphaned_run (p : nat) (tr : list event) (s s' : state) :
  orphaned p s → run tr s = Some s' → orphaned p s'.
Proof.
  revert s. induction tr as [|e tr IH]; intros s Ho Hrun; simpl in Hrun.
  - by injection Hrun as <-.
  - destruct (exec e s) as [s1|] eqn:Hex; [|discriminate].
    eapply IH; [|exact Hrun]. by eapply orphaned_exec.
Qed.

Lemma runNext_resolved (s : state) :
  resolved (state_of (runNext s)) = resolved s.
Proof.
  by destruct (runNext_takes s) as (k & (_ & _ & _ & _ & _ & _ & Hres & _) & _).
Qed.

(** X18.  A promise becomes resolved only in a step that leaves the queue
    with nothing running and nothing pending. *)
Lemma resolved_only_when_idle (p : nat) (e : event) (s s' : state) :
  exec e s = Some s' → p ∈ resolved s' → p ∉ resolved s →
  runningTasks s' = 0 ∧ taskQueue s' = [].
Proof.
  intros Hex Hin Hnin. destruct e as [t | | | | | b | id o]; simpl in Hex.
  - injection Hex as <-. exfalso. apply Hnin. unfold add in Hin.
    pose proof (runNext_resolved (set_taskQueue (taskQueue s ++ [t]) s)) as Hr.
    destruct (runNext (set_taskQueue (taskQueue s ++ [t]) s)); simpl in *;
      by rewrite Hr in Hin.
  - injection Hex as <-. unfold onIdle in *.
    destruct (runningTasks s =? 0) eqn:E1; simpl in *; [|done].
    destruct (length (taskQueue s) =? 0)%nat eqn:E2; simpl in *; [|done].
    split; [lia|]. destruct (taskQueue s); [done | discriminate].
  - injection Hex as <-. done.
  - injection Hex as <-. exfalso. apply Hnin. unfold resume in Hin.
    destruct (isPaused s); [|done].
    by rewrite (runNext_resolved (emit LogResumed (set_isPaused false s))) in Hin.
  - injection Hex as <-. done.
  - injection Hex as <-. done.
  - apply exec_settle in Hex as [Hfl ->].
    set (s1 := state_of (on_settled o (set_in_flight (remove_one id (in_flight s)) s))) in *.
    destruct (on_settled_frame o (set_in_flight (remove_one id (in_flight s)) s))
      as (_ & _ & _ & _ & _ & _ & _ & _ & Hres & _).
    fold s1 in Hres. simpl in Hres. unfold on_finally in *. simpl in *.
    destruct (runningTasks s1 - 1 =? 0) eqn:E1; simpl in *.
    + destruct (length (taskQueue s1) =? 0)%nat eqn:E2; simpl in *.
      * destruct (taskQueue s1) eqn:Eq; [|discriminate].
        unfold runNext. simpl. rewrite Eq. simpl.
        rewrite orb_true_r. simpl. split; [lia | done].
      * exfalso. apply Hnin.
        rewrite (runNext_resolved (set_runningTasks (runningTasks s1 - 1) s1)) in Hin.
        simpl in Hin. congruence.
    + exfalso. apply Hnin.
      rewrite (runNext_resolved (set_runningTasks (runningTasks s1 - 1) s1)) in Hin.
      simpl in Hin. congruence.
Qed.

(** Called on an idle queue, [onIdle] returns a promise that is resolved. *)
Lemma onIdle_when_idle (s : state) :
  runningTasks s = 0 → taskQueue s = [] →
  fst (onIdle s) ∈ resolved (snd (onIdle s)).
Proof.
  intros Hr Hq. unfold onIdle. rewrite Hr, Hq. simpl.
  apply elem_of_app. right. by apply list_elem_of_singleton.
Qed.

(** *** The claims about the queue *)

(** C1.  In every state a queue created with [concurrency = c] reaches by
    [add], [onIdle], [pause], [resume], [clear] and settling tasks, the
    count reported by [getRunningTasksCount] is at most [c], and it is at
    least the number of tasks in flight. *)
Theorem running_tasks_within_concurrency (c : Z) (s0 : state)
        (tr : list event) (s : state) :
  createAsyncQueue c = inr s0 → run tr s0 = Some s →
  getRunningTasksCount s <= c ∧
  Z.of_nat (length (in_flight s)) <= getRunningTasksCount s.
Proof.
  intros Hc Hrun.
  apply createAsyncQueue_inr in Hc as (Hpos & Hc & Hr & _ & _ & Hf & _).
  destruct (run_bounded tr s0 s) as [[Hfl Hb] Hc']; [|done|].
  - unfold bounded. rewrite Hf, Hr, Hc. simpl. lia.
  - unfold getRunningTasksCount. split; [congruence | done].
Qed.



(** X19.  After [pause()], as long as [resume()] is not called: the queue
    stays paused, no task is started whatever is added or settles, the tasks
    in flight are those that were in flight at the pause less the ones that
    settled, and each of them can still settle. *)
Theorem paused_queue_starts_nothing (s : state) (tr : list event) (s' : state) :
  Forall (λ e, is_resume e = false) tr →
  run tr (pause s) = Some s' →
  isPaused s' = true ∧ started s' = started s ∧
  in_flight s' = remove_all (settled tr) (in_flight s) ∧
  runningTasks s' = runningTasks s - Z.of_nat (length (settled tr)) ∧
  ∀ id o, id ∈ in_flight s' → is_Some (exec (Settle id o) s').
Proof.
  intros Hnr Hrun.
  destruct (run_paused tr (pause s) s' Hnr eq_refl Hrun)
    as (Hp & _ & Hs & Hf & Hr).
  repeat split; try done.
  intros id o Hin. simpl. unfold settle. rewrite decide_True by done. done.
Qed.


(** C9.  [clear()] empties the queue of pending tasks and writes one line to
    the console; the tasks in flight, [runningTasks], the pause flag,
    [concurrency], the list of started tasks and the idle promise are what
    they were. *)
Theorem clear_drops_pending_only (s : state) :
  getPendingTasksCount (clear s) = 0%nat ∧
  taskQueue (clear s) = [] ∧
  in_flight (clear s) = in_flight s ∧
  getRunningTasksCount (clear s) = getRunningTasksCount s ∧
  isPaused (clear s) = isPaused s ∧
  concurrency (clear s) = concurrency s ∧
  started (clear s) = started s ∧
  idlePromise (clear s) = idlePromise s ∧
  resolveIdle (clear s) = resolveIdle s ∧
  resolved (clear s) = resolved s ∧
  onError (clear s) = onError s ∧
  outputs (clear s) = outputs s ++ [LogCleared (length (taskQueue s))].
Proof. repeat split. Qed.

(** *** Concrete runs *)

Definition fresh_queue (c : Z) : state :=
  {| concurrency := c; taskQueue := []; runningTasks := 0;
     isPaused := false; idlePromise := 1; resolveIdle := 1;
     onError := false; next_promise := 2; resolved := [0%nat];
     in_flight := []; started := []; outputs := [] |}.

Definition job (id : nat) : task := Task id ReturnsPromise.

(** Five tasks on a queue of two slots; the second rejects, then the first
    fulfils. *)
Definition five_jobs : list event :=
  [Add (job 1); Add (job 2); Add (job 3); Add (job 4); Add (job 5);
   Settle 2 (Rejected "failed" HandlerReturns); Settle 1 Fulfilled].

Definition after_five_jobs : state :=
  {| concurrency := 2; taskQueue := [job 5]; runningTasks := 2;
     isPaused := false; idlePromise := 6; resolveIdle := 6;
     onError := false; next_promise := 7; resolved := [0%nat];
     in_flight := [3%nat; 4%nat]; started := [1%nat; 2%nat; 3%nat; 4%nat];
     outputs := [ConsoleError "failed"] |}.

Lemma five_jobs_run : run five_jobs (fresh_queue 2) = Some after_five_jobs.
Proof. vm_compute. reflexivity. Qed.

Lemma running_tasks_within_concurrency_witness :
  getRunningTasksCount after_five_jobs <= 2 ∧
  Z.of_nat (length (in_flight after_five_jobs)) <= getRunningTasksCount after_five_jobs.
Proof.
  apply (running_tasks_within_concurrency 2 (fresh_queue 2) five_jobs).
  - reflexivity.
  - vm_compute. reflexivity.
Defined.


(** A pause with one task in flight and one pending; another task is added
    and the running one settles before the queue is resumed. *)
Definition before_pause : state :=
  {| concurrency := 1; taskQueue := [job 2]; runningTasks := 1;
     isPaused := false; idlePromise := 3; resolveIdle := 3;
     onError := false; next_promise := 4; resolved := [0%nat];
     in_flight := [1%nat]; started := [1%nat]; outputs := [] |}.

Definition while_paused : list event := [Add (job 3); Settle 1 Fulfilled].

Definition before_resume : state :=
  {| concurrency := 1; taskQueue := [job 2; job 3]; runningTasks := 0;
     isPaused := true; idlePromise := 4; resolveIdle := 4;
     onError := false; next_promise := 5; resolved := [0%nat];
     in_flight := []; started := [1%nat]; outputs := [LogPaused] |}.

Lemma paused_queue_starts_nothing_witness :
  isPaused before_resume = true ∧ started before_resume = started before_pause.
Proof.
  destruct (paused_queue_starts_nothing before_pause while_paused before_resume)
    as (Hp & Hs & _).
  - repeat constructor.
  - vm_compute. reflexivity.
  - split; [exact Hp | exact Hs].
Defined.



(** One slot, two tasks, and a promise obtained from [onIdle] between the two
    calls of [add]. *)
Definition one_running : state :=
  {| concurrency := 1; taskQueue := []; runningTasks := 1;
     isPaused := false; idlePromise := 2; resolveIdle := 2;
     onError := false; next_promise := 3; resolved := [0%nat];
     in_flight := [1%nat]; started := [1%nat]; outputs := [] |}.

Definition one_running_one_pending : state :=
  {| concurrency := 1; taskQueue := [job 2]; runningTasks := 1;
     isPaused := false; idlePromise := 3; resolveIdle := 3;
     onError := false; next_promise := 4; resolved := [0%nat];
     in_flight := [1%nat]; started := [1%nat]; outputs := [] |}.

Definition all_done : state :=
  {| concurrency := 1; taskQueue := []; runningTasks := 0;
     isPaused := false; idlePromise := 3; resolveIdle := 3;
     onError := false; next_promise := 4; resolved := [0%nat; 3%nat];
     in_flight := []; started := [1%nat; 2%nat]; outputs := [] |}.

(** C3, on the code.  [onIdle()] called while task 1 runs returns promise 2.
    The next [add] replaces [idlePromise] and [resolveIdle]; when both tasks
    have settled, nothing is running or pending, [resolveIdle] has resolved
    promise 3, and promise 2 is unresolved and stays so in every
    continuation. *)
Theorem onIdle_promise_orphaned_by_add :
  createAsyncQueue 1 = inr (fresh_queue 1) ∧
  add (job 1) (fresh_queue 1) = Returned one_running ∧
  onIdle one_running = (2%nat, one_running) ∧
  add (job 2) one_running = Returned one_running_one_pending ∧
  run [Settle 1 Fulfilled; Settle 2 Fulfilled] one_running_one_pending
    = Some all_done ∧
  getRunningTasksCount all_done = 0 ∧ getPendingTasksCount all_done = 0%nat ∧
  (2%nat ∉ resolved all_done) ∧
  ∀ tr s', run tr all_done = Some s' → 2%nat ∉ resolved s'.
Proof.
  do 7 (split; [vm_compute; reflexivity|]).
  assert (Ho : orphaned 2 all_done).
  { unfold orphaned. simpl. repeat split; [|done|lia].
    intros H. apply list_elem_of_In in H. simpl in H. intuition discriminate. }
  split; [by destruct Ho|].
  intros tr s' Hrun. by destruct (orphaned_run 2 tr all_done s' Ho Hrun).
Qed.

(** A queue of one slot with an error handler installed, and the state the
    call [add] leaves it in when the task throws. *)
Definition with_handler : state := set_onError true (fresh_queue 1).

Definition slot_lost : state :=
  {| concurrency := 1; taskQueue := []; runningTasks := 1;
     isPaused := false; idlePromise := 1; resolveIdle := 1;
     onError := true; next_promise := 2; resolved := [0%nat];
     in_flight := []; started := [1%nat]; outputs := [] |}.

(** C10, on the code.  When the task function throws instead of returning a
    promise, [add] throws the same error to its caller, [onError] is not
    called and nothing is logged, and [runningTasks] stays at 1 with no task
    in flight: from then on no event changes it, and no task added later is
    ever started. *)
Theorem sync_throw_escapes_and_keeps_slot :
  add (Task 1 (ThrowsSync "boom")) with_handler = Threw "boom" slot_lost ∧
  outputs slot_lost = [] ∧
  getRunningTasksCount slot_lost = 1 ∧ in_flight slot_lost = [] ∧
  ∀ tr s', run tr slot_lost = Some s' →
           getRunningTasksCount s' = 1 ∧ started s' = [1%nat].
Proof.
  do 4 (split; [vm_compute; reflexivity|]).
  intros tr s' Hrun.
  assert (Hst : stuck slot_lost) by (unfold stuck; simpl; split; [done | lia]).
  destruct (run_stuck tr slot_lost s' Hst Hrun) as (_ & Hs & Hr).
  unfold getRunningTasksCount. by rewrite Hr, Hs.
Qed.

(** A paused queue of two slots with two pending tasks, the first of which
    throws when called; and the queue after [resume()]. *)
Definition thrower_pending : state :=
  {| concurrency := 2; taskQueue := [Task 1 (ThrowsSync "boom"); job 2];
     runningTasks := 0; isPaused := true; idlePromise := 3; resolveIdle := 3;
     onError := false; next_promise := 4; resolved := [0%nat];
     in_flight := []; started := []; outputs := [LogPaused] |}.

Definition stranded : state :=
  {| concurrency := 2; taskQueue := [job 2];
     runningTasks := 1; isPaused := false; idlePromise := 3; resolveIdle := 3;
     onError := false; next_promise := 4; resolved := [0%nat];
     in_flight := []; started := [1%nat]; outputs := [LogPaused; LogResumed] |}.

(** C8, on the code.  The queue is paused and two tasks are added; nothing
    is started.  The first task throws instead of returning a promise:
    [resume()] throws the same error to its caller, and the second task is
    left pending although the queue is not paused and one of the two slots
    is free.  No task is in flight whose [finally] callback would call
    [runNext]: the second task is not started before [add] or [resume] is
    called again. *)
Theorem resume_throws_and_strands_pending :
  run [Pause; Add (Task 1 (ThrowsSync "boom")); Add (job 2)] (fresh_queue 2)
    = Some thrower_pending ∧
  started thrower_pending = [] ∧
  resume thrower_pending = Threw "boom" stranded ∧
  isPaused stranded = false ∧
  getRunningTasksCount stranded < concurrency stranded ∧
  pending_ids stranded = [2%nat] ∧
  in_flight stranded = [] ∧
  ∀ tr s', Forall (λ e, is_add e = false ∧ is_resume e = false) tr →
           run tr stranded = Some s' → started s' = [1%nat].
Proof.
  split; [vm_compute; reflexivity|]. split; [reflexivity|].
  split; [vm_compute; reflexivity|]. split; [reflexivity|].
  split; [vm_compute; reflexivity|]. split; [reflexivity|].
  split; [reflexivity|].
  intros tr s' Hall Hrun.
  by destruct (run_waits tr stranded s' eq_refl Hall Hrun) as (_ & -> & _).
Qed.

(** *** Further properties of the queue *)

(** What an event writes to the outside. *)
Definition said (e : event) (s : state) : list output :=
  match e with
  | Pause => [LogPaused]
  | Resume => if isPaused s then [LogResumed] else []
  | Clear => [LogCleared (length (taskQueue s))]
  | Settle _ (Rejected err _) =>
      [if onError s then OnErrorCalled err else ConsoleError err]
  | _ => []
  end.

Lemma runNext_outputs (s : state) : outputs (state_of (runNext s)) = outputs s.
Proof.
  by destruct (runNext_takes s) as (k & (_ & _ & _ & _ & _ & _ & _ & Ho) & _).
Qed.

Lemma on_finally_outputs (s : state) :
  outputs (state_of (on_finally s)) = outputs s.
Proof.
  unfold on_finally. simpl.
  destruct ((runningTasks s - 1 =? 0) && (length (taskQueue s) =? 0)%nat).
  - by rewrite (runNext_outputs
                  (call_resolveIdle (set_runningTasks (runningTasks s - 1) s))).
  - by rewrite (runNext_outputs (set_runningTasks (runningTasks s - 1) s)).
Qed.

Lemma exec_outputs (e : event) (s s' : state) :
  exec e s = Some s' → outputs s' = outputs s ++ said e s.
Proof.
  intros Hex. destruct e as [t | | | | | b | id o]; simpl in Hex.
  - injection Hex as <-. unfold add. simpl. rewrite app_nil_r.
    pose proof (runNext_outputs (set_taskQueue (taskQueue s ++ [t]) s)) as H.
    by destruct (runNext (set_taskQueue (taskQueue s ++ [t]) s)).
  - injection Hex as <-. simpl. rewrite app_nil_r. unfold onIdle.
    by destruct ((runningTasks s =? 0) && (length (taskQueue s) =? 0)%nat).
  - by injection Hex as <-.
  - injection Hex as <-. unfold resume. simpl.
    destruct (isPaused s); [|by rewrite app_nil_r].
    by rewrite (runNext_outputs (emit LogResumed (set_isPaused false s))).
  - by injection Hex as <-.
  - injection Hex as <-. simpl. by rewrite app_nil_r.
  - apply exec_settle in Hex as [Hin ->]. rewrite on_finally_outputs.
    destruct o as [|err h]; simpl; [by rewrite app_nil_r|].
    unfold on_rejected. simpl. destruct (onError s); [by destruct h | done].
Qed.

(** The number of tasks [clear] reported as removed. *)
Fixpoint cleared (l : list output) : nat :=
  match l with
  | [] => 0
  | LogCleared n :: l' => n + cleared l'
  | _ :: l' => cleared l'
  end.

Lemma cleared_app (l l' : list output) :
  cleared (l ++ l') = (cleared l + cleared l')%nat.
Proof.
  induction l as [|o l IH]; [done|]. destruct o; simpl; rewrite ?IH; lia.
Qed.

Lemma exec_accounts (e : event) (s s' : state) :
  exec e s = Some s' →
  (length (started s') + length (taskQueue s') + cleared (outputs s')
   = length (started s) + length (taskQueue s) + cleared (outputs s)
     + length (submitted [e]))%nat.
Proof.
  intros Hex.
  destruct (exec_moves_front e s s' Hex) as (k & Hs & Hq).
  rewrite (exec_outputs e s s' Hex), cleared_app, Hs, Hq.
  rewrite length_app, length_fmap, length_take, length_drop.
  destruct e as [t | | | | | b | id o]; simpl;
    rewrite ?length_app; simpl; try lia.
  - destruct (isPaused s); simpl; lia.
  - destruct o; simpl; [lia|]. destruct (onError s); simpl; lia.
Qed.

Lemma run_accounts (tr : list event) (s s' : state) :
  run tr s = Some s' →
  (length (started s') + length (taskQueue s') + cleared (outputs s')
   = length (started s) + length (taskQueue s) + cleared (outputs s)
     + length (submitted tr))%nat.
Proof.
  revert s. induction tr as [|e tr IH]; intros s Hrun; simpl in Hrun.
  - injection Hrun as <-. simpl. lia.
  - destruct (exec e s) as [s1|] eqn:Hex; [|discriminate].
    pose proof (IH s1 Hrun) as H1. pose proof (exec_accounts e s s1 Hex) as H2.
    rewrite submitted_cons, length_app. lia.
Qed.

(** The errors reported, to either sink, and the rejections in a run. *)
Definition reported (l : list output) : list string :=
  omap (λ o, match o with
             | OnErrorCalled e | ConsoleError e => Some e
             | _ => None
             end) l.

Definition rejections (tr : list event) : list string :=
  omap (λ e, match e with Settle _ (Rejected err _) => Some err | _ => None end) tr.

Lemma reported_said (e : event) (s : state) :
  reported (said e s) = rejections [e].
Proof.
  destruct e as [t | | | | | b | id o]; simpl; try done.
  - by destruct (isPaused s).
  - destruct o as [|err]; [done|]. by destruct (onError s).
Qed.

Lemma run_reported (tr : list event) (s s' : state) :
  run tr s = Some s' →
  reported (outputs s') = reported (outputs s) ++ rejections tr.
Proof.
  revert s. induction tr as [|e tr IH]; intros s Hrun; simpl in Hrun.
  - injection Hrun as <-. by rewrite app_nil_r.
  - destruct (exec e s) as [s1|] eqn:Hex; [|discriminate].
    rewrite (IH s1 Hrun), (exec_outputs e s s1 Hex).
    unfold reported at 1. rewrite omap_app. fold (reported (outputs s)).
    fold (reported (said e s)). rewrite reported_said, <- app_assoc.
    f_equal. unfold rejections. simpl. by destruct e as [| | | | | |? []].
Qed.

(** X8.  Every task passed to [add] is accounted for: it was started, or it
    is pending, or a [clear()] removed it and reported it in its count. *)
Theorem submitted_tasks_accounted_for (c : Z) (s0 : state)
        (tr : list event) (s : state) :
  createAsyncQueue c = inr s0 → run tr s0 = Some s →
  length (submitted tr)
  = (length (started s) + getPendingTasksCount s + cleared (outputs s))%nat.
Proof.
  intros Hc Hrun. pose proof (run_accounts tr s0 s Hrun) as H.
  unfold createAsyncQueue in Hc. destruct (c <=? 0); [discriminate|].
  injection Hc as <-. simpl in H. unfold getPendingTasksCount. lia.
Qed.

(** X9.  The errors reported to [onError] or [console.error] are exactly the
    rejections of task promises, one report each, in the order the promises
    settled; a fulfilled task reports nothing. *)
Theorem every_rejection_reported_once (c : Z) (s0 : state)
        (tr : list event) (s : state) :
  createAsyncQueue c = inr s0 → run tr s0 = Some s →
  reported (outputs s) = rejections tr.
Proof.
  intros Hc Hrun. pose proof (run_reported tr s0 s Hrun) as H.
  unfold createAsyncQueue in Hc. destruct (c <=? 0); [discriminate|].
  injection Hc as <-. by simpl in H.
Qed.

(** *** Queues whose tasks all return promises *)

Definition adds_promise (e : event) : bool :=
  match e with
  | Add t => returns_promise t
  | _ => true
  end.

(** [runningTasks] counts the tasks in flight exactly, it is within
    [concurrency], and the pending tasks return promises. *)
Definition sound (s : state) : Prop :=
  runningTasks s = Z.of_nat (length (in_flight s)) ∧
  runningTasks s <= concurrency s ∧
  Forall (λ t, returns_promise t = true) (taskQueue s).

(** A sound queue that, unless paused, has no free slot while a task is
    pending. *)
Definition steady (s : state) : Prop :=
  sound s ∧
  (isPaused s = false → taskQueue s = [] ∨ runningTasks s = concurrency s).

Lemma runNext_from_no_throw (q : list task) (s : state) :
  Forall (λ t, returns_promise t = true) q →
  has_thrown (runNext_from q s) = false.
Proof.
  apply (runNext_from_ind
           (λ q s r, Forall (λ t, returns_promise t = true) q →
                     has_thrown r = false)).
  - done.
  - clear. intros t rest s e _ Ht Hall. apply Forall_cons in Hall as [Hrp _].
    unfold returns_promise in Hrp. by rewrite Ht in Hrp.
  - clear. intros t rest s r _ _ _ IH Hall. apply IH.
    by apply Forall_cons in Hall as [_ ?].
Qed.

Lemma runNext_steady (s : state) :
  sound s → steady (state_of (runNext s)) ∧ has_thrown (runNext s) = false.
Proof.
  intros (Hr & Hc & Hall).
  pose proof (runNext_from_no_throw (taskQueue s) s Hall) as Hnt.
  split; [|exact Hnt].
  destruct (isPaused s) eqn:Hp.
  - rewrite runNext_paused by done. simpl. split; [done | congruence].
  - destruct (runNext_from_fills (taskQueue s) s eq_refl Hp Hall)
      as (_ & (Hc' & Hp' & _) & Hk & _ & Hq & Hrn & Hfl & _).
    fold (runNext s) in *. rewrite Hnt in Hfl.
    set (k := Nat.min (length (taskQueue s))
                (Z.to_nat (concurrency s - runningTasks s))) in *.
    split; [split; [|split]|].
    + rewrite Hrn, Hfl, length_app, length_fmap, length_take. lia.
    + rewrite Hrn, Hc'. lia.
    + rewrite Hq. by apply Forall_drop.
    + intros _. rewrite Hq, Hrn, Hc'.
      destruct (decide (k = length (taskQueue s))) as [E | E].
      * left. rewrite E. apply drop_all.
      * right. lia.
Qed.

Lemma on_finally_steady (s : state) :
  runningTasks s - 1 = Z.of_nat (length (in_flight s)) →
  runningTasks s - 1 <= concurrency s →
  Forall (λ t, returns_promise t = true) (taskQueue s) →
  steady (state_of (on_finally s)).
Proof.
  intros Hr Hc Hall. unfold on_finally. simpl.
  destruct ((runningTasks s - 1 =? 0) && (length (taskQueue s) =? 0)%nat).
  - by apply (runNext_steady
                (call_resolveIdle (set_runningTasks (runningTasks s - 1) s))).
  - by apply (runNext_steady (set_runningTasks (runningTasks s - 1) s)).
Qed.

Lemma exec_steady (e : event) (s s' : state) :
  adds_promise e = true → steady s → exec e s = Some s' → steady s'.
Proof.
  intros Hrp Hst0 Hex. pose proof Hst0 as [(Hr & Hc & Hall) Hfull].
  destruct e as [t | | | | | b | id o]; simpl in Hex.
  - injection Hex as <-. unfold add.
    destruct (runNext_steady (set_taskQueue (taskQueue s ++ [t]) s))
      as [Hst Hnt].
    { split; [done|]. split; [done|]. simpl. apply Forall_app. split; [done|].
      by apply Forall_singleton. }
    destruct (runNext (set_taskQueue (taskQueue s ++ [t]) s)); [|discriminate].
    exact Hst.
  - injection Hex as <-. unfold onIdle.
    destruct ((runningTasks s =? 0) && (length (taskQueue s) =? 0)%nat); done.
  - injection Hex as <-. done.
  - injection Hex as <-. unfold resume. destruct (isPaused s) eqn:Hp; [|done].
    by apply (runNext_steady (emit LogResumed (set_isPaused false s))).
  - injection Hex as <-. split; [split; [done|]; split; [done|]; constructor|].
    intros _. by left.
  - injection Hex as <-. done.
  - apply exec_settle in Hex as [Hin ->].
    apply length_remove_one in Hin.
    destruct (on_settled_frame o (set_in_flight (remove_one id (in_flight s)) s))
      as (Hc1 & Hq1 & Hr1 & _ & _ & _ & _ & _ & _ & Hf1 & _).
    simpl in Hc1, Hq1, Hr1, Hf1.
    apply on_finally_steady; rewrite ?Hr1, ?Hf1, ?Hc1, ?Hq1; [lia | lia | done].
Qed.

Lemma run_steady (tr : list event) (s s' : state) :
  Forall (λ e, adds_promise e = true) tr → steady s → run tr s = Some s' →
  steady s'.
Proof.
  intros Hall. revert s.
  induction Hall as [|e tr He _ IH]; intros s Hst Hrun; simpl in Hrun.
  - by injection Hrun as <-.
  - destruct (exec e s) as [s1|] eqn:Hex; [|discriminate].
    eapply IH; [|exact Hrun]. by eapply exec_steady.
Qed.

Lemma steady_fresh (c : Z) (s0 : state) :
  createAsyncQueue c = inr s0 → steady s0.
Proof.
  unfold createAsyncQueue. destruct (c <=? 0) eqn:E; [discriminate|].
  intros [= <-]. split; [split; [done|]; split; [simpl; lia | constructor]|].
  intros _. by left.
Qed.

(** X10.  When every task passed to [add] returns a promise, the count
    reported by [getRunningTasksCount] is exactly the number of tasks in
    flight. *)
Theorem running_count_is_exact (c : Z) (s0 : state) (tr : list event) (s : state) :
  createAsyncQueue c = inr s0 →
  Forall (λ e, adds_promise e = true) tr →
  run tr s0 = Some s →
  getRunningTasksCount s = Z.of_nat (length (in_flight s)).
Proof.
  intros Hc Hall Hrun.
  by destruct (run_steady tr s0 s Hall (steady_fresh c s0 Hc) Hrun) as [(? & _) _].
Qed.

(** X11.  When every task passed to [add] returns a promise, a queue that is
    not paused never leaves a slot free while a task is pending: after every
    event nothing is pending or [concurrency] tasks are running. *)
Theorem no_free_slot_while_pending (c : Z) (s0 : state) (tr : list event) (s : state) :
  createAsyncQueue c = inr s0 →
  Forall (λ e, adds_promise e = true) tr →
  run tr s0 = Some s →
  isPaused s = false →
  getPendingTasksCount s = 0%nat ∨ getRunningTasksCount s = c.
Proof.
  intros Hc Hall Hrun Hp.
  destruct (run_steady tr s0 s Hall (steady_fresh c s0 Hc) Hrun) as [_ Hfull].
  destruct (run_bounded tr s0 s) as [_ Hcc]; [|done|].
  { apply createAsyncQueue_inr in Hc as (? & Hc & Hr & _ & _ & Hf & _).
    unfold bounded. rewrite Hf, Hr, Hc. simpl. lia. }
  apply createAsyncQueue_inr in Hc as (_ & Hc & _).
  unfold getPendingTasksCount, getRunningTasksCount.
  destruct (Hfull Hp) as [-> | ->]; [by left | right; congruence].
Qed.

(** X12.  When every task passed to [add] so far returned a promise, [add]
    of another such task returns normally, and so does [resume]. *)
Theorem add_and_resume_return (c : Z) (s0 : state) (tr : list event)
        (s : state) (t : task) :
  createAsyncQueue c = inr s0 →
  Forall (λ e, adds_promise e = true) tr →
  run tr s0 = Some s →
  returns_promise t = true →
  has_thrown (add t s) = false ∧ has_thrown (resume s) = false.
Proof.
  intros Hc Hall Hrun Ht.
  destruct (run_steady tr s0 s Hall (steady_fresh c s0 Hc) Hrun)
    as [(Hr & Hcc & Hq) _].
  split.
  - unfold add, runNext. simpl.
    pose proof (runNext_from_no_throw (taskQueue s ++ [t])
                  (set_taskQueue (taskQueue s ++ [t]) s)) as H.
    destruct (runNext_from _ _); [done|]. apply H.
    apply Forall_app. split; [done | by apply Forall_singleton].
  - unfold resume. destruct (isPaused s); [|done].
    by apply (runNext_from_no_throw (taskQueue s)
                (emit LogResumed (set_isPaused false s))).
Qed.

(** X13.  When every task passed to [add] returns a promise, [pause()]
    followed at once by [resume()] on a queue that was not paused starts
    nothing and changes nothing but the console: the two lines are logged. *)
Theorem pause_then_resume_only_logs (c : Z) (s0 : state) (tr : list event) (s : state) :
  createAsyncQueue c = inr s0 →
  Forall (λ e, adds_promise e = true) tr →
  run tr s0 = Some s →
  isPaused s = false →
  resume (pause s) = Returned (emit LogResumed (emit LogPaused s)).
Proof.
  intros Hc Hall Hrun Hp.
  destruct (run_steady tr s0 s Hall (steady_fresh c s0 Hc) Hrun)
    as [(Hr & Hcc & _) Hfull].
  unfold resume, pause. simpl. unfold runNext.
  rewrite runNext_from_blocked.
  - f_equal. unfold emit, set_isPaused. simpl. by rewrite <- Hp.
  - unfold blocked. simpl. destruct (Hfull Hp) as [-> | ->].
    + simpl. by rewrite orb_true_r.
    + rewrite Z.leb_refl. done.
Qed.

(** *** The idle promise *)

Lemma runNext_idle_pair (s : state) :
  idlePromise (state_of (runNext s)) = idlePromise s ∧
  resolveIdle (state_of (runNext s)) = resolveIdle s.
Proof.
  by destruct (runNext_takes s) as (k & (_ & _ & ? & ? & _) & _).
Qed.

Lemma on_finally_idle_pair (s : state) :
  idlePromise (state_of (on_finally s)) = idlePromise s ∧
  resolveIdle (state_of (on_finally s)) = resolveIdle s.
Proof.
  unfold on_finally. simpl.
  destruct ((runningTasks s - 1 =? 0) && (length (taskQueue s) =? 0)%nat).
  - apply (runNext_idle_pair
             (call_resolveIdle (set_runningTasks (runningTasks s - 1) s))).
  - apply (runNext_idle_pair (set_runningTasks (runningTasks s - 1) s)).
Qed.

(** Only [add] replaces the idle promise and its resolver. *)
Lemma exec_idle_pair (e : event) (s s' : state) :
  is_add e = false → exec e s = Some s' →
  idlePromise s' = idlePromise s ∧ resolveIdle s' = resolveIdle s.
Proof.
  intros Hna Hex. destruct e as [t | | | | | b | id o]; simpl in Hex;
    try discriminate.
  - injection Hex as <-. unfold onIdle.
    by destruct ((runningTasks s =? 0) && (length (taskQueue s) =? 0)%nat).
  - by injection Hex as <-.
  - injection Hex as <-. unfold resume. destruct (isPaused s); [|done].
    apply (runNext_idle_pair (emit LogResumed (set_isPaused false s))).
  - by injection Hex as <-.
  - by injection Hex as <-.
  - apply exec_settle in Hex as [Hin ->].
    destruct (on_settled_frame o (set_in_flight (remove_one id (in_flight s)) s))
      as (_ & _ & _ & _ & Hi & Hri & _).
    destruct (on_finally_idle_pair
                (state_of
                   (on_settled o (set_in_flight (remove_one id (in_flight s)) s))))
      as [-> ->].
    done.
Qed.

Lemma run_idle_pair (tr : list event) (s s' : state) :
  Forall (λ e, is_add e = false) tr → run tr s = Some s' →
  idlePromise s' = idlePromise s ∧ resolveIdle s' = resolveIdle s.
Proof.
  intros Hna. revert s.
  induction Hna as [|e tr He _ IH]; intros s Hrun; simpl in Hrun.
  - by injection Hrun as <-.
  - destruct (exec e s) as [s1|] eqn:Hex; [|discriminate].
    destruct (exec_idle_pair e s s1 He Hex) as [<- <-]. by apply IH.
Qed.

(** [resolveIdle] always resolves the current [idlePromise]. *)
Lemma exec_paired (e : event) (s s' : state) :
  idlePromise s = resolveIdle s → exec e s = Some s' →
  idlePromise s' = resolveIdle s'.
Proof.
  intros Hp Hex. destruct (is_add e) eqn:Ha.
  - destruct e as [t | | | | | b | id o]; try discriminate.
    simpl in Hex. injection Hex as <-. unfold add.
    destruct (runNext_idle_pair (set_taskQueue (taskQueue s ++ [t]) s)) as [H1 H2].
    destruct (runNext (set_taskQueue (taskQueue s ++ [t]) s)); simpl in *;
      [done | congruence].
  - destruct (exec_idle_pair e s s' Ha Hex) as [-> ->]. done.
Qed.

Lemma run_paired (tr : list event) (s s' : state) :
  idlePromise s = resolveIdle s → run tr s = Some s' →
  idlePromise s' = resolveIdle s'.
Proof.
  revert s. induction tr as [|e tr IH]; intros s Hp Hrun; simpl in Hrun.
  - by injection Hrun as <-.
  - destruct (exec e s) as [s1|] eqn:Hex; [|discriminate].
    eapply IH; [|exact Hrun]. by eapply exec_paired.
Qed.

(** A task settles and leaves nothing running and nothing pending: then its
    [finally] callback has called [resolveIdle]. *)
Lemma settle_reaches_idle (id : nat) (o : settlement) (s s' : state) :
  bounded s → exec (Settle id o) s = Some s' →
  runningTasks s' = 0 → taskQueue s' = [] →
  resolveIdle s ∈ resolved s'.
Proof.
  intros [Hfl Hb] Hex Hr0 Hq0. apply exec_settle in Hex as [Hin ->].
  apply length_remove_one in Hin.
  set (s1 := state_of (on_settled o (set_in_flight (remove_one id (in_flight s)) s))) in *.
  destruct (on_settled_frame o (set_in_flight (remove_one id (in_flight s)) s))
    as (_ & Hq1 & Hr1 & _ & _ & Hri & _ & _ & Hres & _).
  fold s1 in Hq1, Hr1, Hri, Hres. simpl in Hq1, Hr1, Hri, Hres.
  unfold on_finally in *. simpl in *.
  destruct ((runningTasks s1 - 1 =? 0) && (length (taskQueue s1) =? 0)%nat) eqn:E.
  - rewrite (runNext_resolved
               (call_resolveIdle (set_runningTasks (runningTasks s1 - 1) s1))).
    simpl. rewrite Hri. case_decide as Hd; [exact Hd|].
    apply elem_of_app. right. by apply list_elem_of_singleton.
  - exfalso.
    destruct (runNext_takes (set_runningTasks (runningTasks s1 - 1) s1))
      as (k & _ & _ & _ & Hq & Hrn & _).
    simpl in Hq, Hrn. rewrite Hq0 in Hq. rewrite Hr0 in Hrn.
    assert (k = 0%nat) as -> by lia.
    rewrite drop_0 in Hq. rewrite <- Hq in E. simpl in E.
    destruct (runningTasks s1 - 1 =? 0) eqn:E1; [discriminate | lia].
Qed.

Lemma run_last (tr : list event) (e : event) (s s' : state) :
  run (tr ++ [e]) s = Some s' →
  ∃ s1, run tr s = Some s1 ∧ exec e s1 = Some s'.
Proof.
  revert s. induction tr as [|e0 tr IH]; intros s Hrun; simpl in Hrun.
  - destruct (exec e s) as [s2|] eqn:Hex; [|discriminate].
    exists s. split; [done|]. congruence.
  - destruct (exec e0 s) as [s2|] eqn:Hex; [|discriminate].
    destruct (IH s2 Hrun) as (s1 & H1 & H2). exists s1.
    split; [|done]. simpl. by rewrite Hex.
Qed.

(** X14.  A promise obtained from [onIdle()] while the queue is busy is
    resolved at the latest when a task settles and leaves nothing running
    and nothing pending, provided [add] is not called in between. *)
Theorem onIdle_resolves_without_add (c : Z) (s0 : state) (tr0 : list event)
        (s : state) (tr : list event) (id : nat) (o : settlement) (s' : state) :
  createAsyncQueue c = inr s0 → run tr0 s0 = Some s →
  getRunningTasksCount s ≠ 0 ∨ getPendingTasksCount s ≠ 0%nat →
  Forall (λ e, is_add e = false) tr →
  run (tr ++ [Settle id o]) (snd (onIdle s)) = Some s' →
  getRunningTasksCount s' = 0 → getPendingTasksCount s' = 0%nat →
  fst (onIdle s) ∈ resolved s'.
Proof.
  unfold getRunningTasksCount, getPendingTasksCount.
  intros Hc Hrun0 Hbusy Hna Hrun Hr0 Hq0.
  assert (Hon : onIdle s = (idlePromise s, s)).
  { unfold onIdle. destruct (runningTasks s =? 0) eqn:E1; [|done].
    destruct (length (taskQueue s) =? 0)%nat eqn:E2; [|done].
    apply Z.eqb_eq in E1. apply Nat.eqb_eq in E2. by destruct Hbusy. }
  rewrite Hon in *. simpl in *.
  assert (Hb0 : bounded s0 ∧ idlePromise s0 = resolveIdle s0).
  { unfold createAsyncQueue in Hc. destruct (c <=? 0) eqn:E; [discriminate|].
    injection Hc as <-. unfold bounded. simpl. split; [lia | done]. }
  destruct Hb0 as [Hb0 Hp0].
  destruct (run_bounded tr0 s0 s Hb0 Hrun0) as [Hb _].
  pose proof (run_paired tr0 s0 s Hp0 Hrun0) as Hp.
  pose proof (run_last tr (Settle id o) s s' Hrun) as Hsplit.
  destruct Hsplit as (s1 & Hrun1 & Hex).
  destruct (run_bounded tr s s1 Hb Hrun1) as [Hb1 _].
  destruct (run_idle_pair tr s s1 Hna Hrun1) as [_ Hri].
  rewrite Hp, <- Hri.
  apply (settle_reaches_idle id o s1 s' Hb1 Hex Hr0).
  by destruct (taskQueue s').
Qed.

(** *** What [clear] drops stays dropped *)

Lemma exec_starts_from_queue (e : event) (s s' : state) :
  exec e s = Some s' →
  ∃ extra, started s' = started s ++ extra ∧
           sublist (extra ++ pending_ids s') (pending_ids s ++ submitted [e]).
Proof.
  intros Hex. destruct (exec_moves_front e s s' Hex) as (k & Hs & Hq).
  exists (task_id <$> take k (queue_before_starts e s)). split; [done|].
  unfold pending_ids. rewrite Hq, <- fmap_app, take_drop.
  destruct e as [t | | | | | b | id o]; simpl; rewrite ?app_nil_r; try done.
  - by rewrite fmap_app.
  - apply sublist_nil_l.
Qed.

Lemma run_starts_from_queue (tr : list event) (s s' : state) :
  run tr s = Some s' →
  ∃ extra, started s' = started s ++ extra ∧
           sublist (extra ++ pending_ids s') (pending_ids s ++ submitted tr).
Proof.
  revert s. induction tr as [|e tr IH]; intros s Hrun; simpl in Hrun.
  - injection Hrun as <-. exists []. by rewrite !app_nil_r.
  - destruct (exec e s) as [s1|] eqn:Hex; [|discriminate].
    destruct (exec_starts_from_queue e s s1 Hex) as (x1 & Hs1 & Hsub1).
    destruct (IH s1 Hrun) as (x2 & Hs2 & Hsub2).
    exists (x1 ++ x2). split; [by rewrite Hs2, Hs1, app_assoc|].
    rewrite submitted_cons, (app_assoc (pending_ids s)), <- (app_assoc x1).
    transitivity (x1 ++ (pending_ids s1 ++ submitted tr)).
    + by apply sublist_app.
    + rewrite app_assoc. by apply sublist_app.
Qed.

(** X15.  After [clear()], whatever happens next, the only tasks that are
    started are tasks passed to [add] after the [clear], in the order they
    were added; what it removed is never started. *)
Theorem cleared_tasks_never_start (s : state) (tr : list event) (s' : state) :
  run tr (clear s) = Some s' →
  ∃ extra, started s' = started s ++ extra ∧ sublist extra (submitted tr).
Proof.
  intros Hrun.
  destruct (run_starts_from_queue tr (clear s) s' Hrun) as (extra & Hs & Hsub).
  exists extra. split; [exact Hs|].
  transitivity (extra ++ pending_ids s'); [by apply sublist_inserts_r|].
  exact Hsub.
Qed.

(** *** Slots that are never given back *)

Lemma runNext_leak (s : state) :
  runningTasks s - Z.of_nat (length (in_flight s))
  <= runningTasks (state_of (runNext s))
     - Z.of_nat (length (in_flight (state_of (runNext s)))).
Proof.
  destruct (runNext_takes s) as (k & _ & Hk & _ & _ & Hr & Hf & _).
  rewrite Hr, Hf, length_app, length_fmap, length_take.
  destruct (has_thrown (runNext s)); lia.
Qed.

Lemma exec_leak (e : event) (s s' : state) :
  exec e s = Some s' →
  runningTasks s - Z.of_nat (length (in_flight s))
  <= runningTasks s' - Z.of_nat (length (in_flight s')).
Proof.
  intros Hex. destruct e as [t | | | | | b | id o]; simpl in Hex.
  - injection Hex as <-. unfold add.
    pose proof (runNext_leak (set_taskQueue (taskQueue s ++ [t]) s)) as H.
    by destruct (runNext (set_taskQueue (taskQueue s ++ [t]) s)).
  - injection Hex as <-. unfold onIdle.
    by destruct ((runningTasks s =? 0) && (length (taskQueue s) =? 0)%nat).
  - by injection Hex as <-.
  - injection Hex as <-. unfold resume. destruct (isPaused s); [|done].
    apply (runNext_leak (emit LogResumed (set_isPaused false s))).
  - by injection Hex as <-.
  - by injection Hex as <-.
  - apply exec_settle in Hex as [Hin ->]. apply length_remove_one in Hin.
    set (s1 := state_of (on_settled o (set_in_flight (remove_one id (in_flight s)) s))).
    destruct (on_settled_frame o (set_in_flight (remove_one id (in_flight s)) s))
      as (_ & _ & Hr1 & _ & _ & _ & _ & _ & _ & Hf1 & _).
    fold s1 in Hr1, Hf1. simpl in Hr1, Hf1. unfold on_finally. simpl.
    destruct ((runningTasks s1 - 1 =? 0) && (length (taskQueue s1) =? 0)%nat).
    + pose proof (runNext_leak
                    (call_resolveIdle (set_runningTasks (runningTasks s1 - 1) s1))) as H.
      simpl in H. rewrite Hf1 in H. lia.
    + pose proof (runNext_leak (set_runningTasks (runningTasks s1 - 1) s1)) as H.
      simpl in H. rewrite Hf1 in H. lia.
Qed.

(** X16.  The number of slots counted in [runningTasks] that no task in
    flight holds never goes down in any run: a slot taken by a task that
    threw is not given back by any later call or settlement. *)
Theorem lost_slots_never_return (tr : list event) (s s' : state) :
  run tr s = Some s' →
  getRunningTasksCount s - Z.of_nat (length (in_flight s))
  <= getRunningTasksCount s' - Z.of_nat (length (in_flight s')).
Proof.
  unfold getRunningTasksCount. revert s.
  induction tr as [|e tr IH]; intros s Hrun; simpl in Hrun.
  - injection Hrun as <-. lia.
  - destruct (exec e s) as [s1|] eqn:Hex; [|discriminate].
    pose proof (exec_leak e s s1 Hex). pose proof (IH s1 Hrun). lia.
Qed.

(** *** Concrete runs for the further properties *)

Lemma submitted_tasks_accounted_for_witness :
  length (submitted five_jobs)
  = (length (started after_five_jobs) + getPendingTasksCount after_five_jobs
     + cleared (outputs after_five_jobs))%nat.
Proof.
  apply (submitted_tasks_accounted_for 2 (fresh_queue 2) five_jobs).
  - reflexivity.
  - vm_compute. reflexivity.
Defined.

Lemma every_rejection_reported_once_witness :
  reported (outputs after_five_jobs) = rejections five_jobs.
Proof.
  apply (every_rejection_reported_once 2 (fresh_queue 2) five_jobs).
  - reflexivity.
  - vm_compute. reflexivity.
Defined.

Lemma running_count_is_exact_witness :
  getRunningTasksCount after_five_jobs
  = Z.of_nat (length (in_flight after_five_jobs)).
Proof.
  apply (running_count_is_exact 2 (fresh_queue 2) five_jobs).
  - reflexivity.
  - repeat constructor.
  - vm_compute. reflexivity.
Defined.

Lemma no_free_slot_while_pending_witness :
  getPendingTasksCount after_five_jobs = 0%nat ∨
  getRunningTasksCount after_five_jobs = 2.
Proof.
  apply (no_free_slot_while_pending 2 (fresh_queue 2) five_jobs).
  - reflexivity.
  - repeat constructor.
  - vm_compute. reflexivity.
  - reflexivity.
Defined.

Lemma add_and_resume_return_witness :
  has_thrown (add (job 6) after_five_jobs) = false ∧
  has_thrown (resume after_five_jobs) = false.
Proof.
  apply (add_and_resume_return 2 (fresh_queue 2) five_jobs).
  - reflexivity.
  - repeat constructor.
  - vm_compute. reflexivity.
  - reflexivity.
Defined.

Lemma pause_then_resume_only_logs_witness :
  resume (pause after_five_jobs)
  = Returned (emit LogResumed (emit LogPaused after_five_jobs)).
Proof.
  apply (pause_then_resume_only_logs 2 (fresh_queue 2) five_jobs).
  - reflexivity.
  - repeat constructor.
  - vm_compute. reflexivity.
  - reflexivity.
Defined.

(** The only task has settled. *)
Definition one_done : state :=
  {| concurrency := 1; taskQueue := []; runningTasks := 0;
     isPaused := false; idlePromise := 2; resolveIdle := 2;
     onError := false; next_promise := 3; resolved := [0%nat; 2%nat];
     in_flight := []; started := [1%nat]; outputs := [] |}.

Lemma onIdle_resolves_without_add_witness :
  fst (onIdle one_running) ∈ resolved one_done.
Proof.
  apply (onIdle_resolves_without_add 1 (fresh_queue 1) [Add (job 1)]
           one_running [] 1%nat Fulfilled one_done).
  - reflexivity.
  - vm_compute. reflexivity.
  - left. vm_compute. discriminate.
  - constructor.
  - vm_compute. reflexivity.
  - reflexivity.
  - reflexivity.
Defined.

(** The pending task is cleared, another is added, the running one settles. *)
Definition after_clear_and_add : state :=
  {| concurrency := 1; taskQueue := []; runningTasks := 1;
     isPaused := false; idlePromise := 4; resolveIdle := 4;
     onError := false; next_promise := 5; resolved := [0%nat];
     in_flight := [3%nat]; started := [1%nat; 3%nat];
     outputs := [LogCleared 1] |}.

Lemma cleared_tasks_never_start_witness :
  ∃ extra, started after_clear_and_add
           = started one_running_one_pending ++ extra ∧
           sublist extra (submitted [Add (job 3); Settle 1 Fulfilled]).
Proof.
  apply (cleared_tasks_never_start one_running_one_pending
           [Add (job 3); Settle 1 Fulfilled] after_clear_and_add).
  vm_compute. reflexivity.
Defined.

Lemma lost_slots_never_return_witness :
  getRunningTasksCount with_handler - Z.of_nat (length (in_flight with_handler))
  <= getRunningTasksCount slot_lost - Z.of_nat (length (in_flight slot_lost)).
Proof.
  apply (lost_slots_never_return [Add (Task 1 (ThrowsSync "boom"))]).
  vm_compute. reflexivity.
Defined.



(** The first of the two tasks has settled, the second is running. *)
Definition second_running : state :=
  {| concurrency := 1; taskQueue := []; runningTasks := 1;
     isPaused := false; idlePromise := 3; resolveIdle := 3;
     onError := false; next_promise := 4; resolved := [0%nat];
     in_flight := [2%nat]; started := [1%nat; 2%nat]; outputs := [] |}.

Lemma resolved_only_when_idle_witness :
  runningTasks all_done = 0 ∧ taskQueue all_done = [].
Proof.
  apply (resolved_only_when_idle 3 (Settle 2 Fulfilled) second_running all_done).
  - vm_compute. reflexivity.
  - apply elem_of_cons. right. apply list_elem_of_singleton. reflexivity.
  - intros H. apply list_elem_of_singleton in H. discriminate.
Defined.

End AsyncQueue.
